(** * Feature consolidation (consolidate_features.py)

    A shallow embedding of the consolidation script of x402Arcade: the
    [Feature] records, the per-category merge ([merge_steps],
    [consolidate_category]), the whole-table pass ([consolidate_all]), the
    validation of the result and the migration that swaps the tables. *)

From stdpp Require Import base numbers option list list_numbers strings gmap sorting pretty.

(** ** Python values *)

(** A Python [str] is a sequence of Unicode code points. *)
Abbreviation str := (list N).

(** An ASCII literal of the source, as code points. *)
Definition lit (s : string) : str := Ascii.N_of_ascii <$> String.list_ascii_of_string s.

(** [str(n)] for a non-negative int. *)
Definition str_of_nat (n : nat) : str := lit (pretty n).

(** The glyphs the script prints. *)
Definition CHECK_MARK : N := 10003.    (* U+2713 *)
Definition WHITE_CIRCLE : N := 9675.   (* U+25CB *)
Definition WARNING_SIGN : N := 9888.   (* U+26A0 *)
Definition BALLOT_X : N := 10007.      (* U+2717 *)

(** [c.isspace()]: the code points [str.split()] treats as separators. *)
Definition isspace (c : N) : bool :=
  ((9 <=? c) && (c <=? 13) || (28 <=? c) && (c <=? 32)
   || (c =? 133) || (c =? 160) || (c =? 5760)
   || (8192 <=? c) && (c <=? 8202)
   || (c =? 8232) || (c =? 8233) || (c =? 8239) || (c =? 8287)
   || (c =? 12288))%N.

(** [s.split()] with no separator: the maximal runs of non-space code
    points, in order. [word] is the run being scanned. *)
Fixpoint split_from (word : str) (s : str) : list str :=
  match s with
  | [] => match word with [] => [] | _ => [word] end
  | c :: s' =>
      if isspace c
      then match word with
           | [] => split_from [] s'
           | _ => word :: split_from [] s'
           end
      else split_from (word ++ [c]) s'
  end.

Definition split (s : str) : list str := split_from [] s.

(** [sep.join(parts)]. *)
Fixpoint join (sep : str) (parts : list str) : str :=
  match parts with
  | [] => []
  | [p] => p
  | p :: ps => p ++ sep ++ join sep ps
  end.

(** [range(start, stop, step)] for a positive step. *)
Definition range (start stop step : nat) : list nat :=
  (λ k, start + k * step) <$> seq 0 ((stop - start + (step - 1)) `div` step).

(** [l[i:j]] for [0 <= i <= j]. *)
Definition slice {A} (l : list A) (i j : nat) : list A := take (j - i) (drop i l).

(** [s.ljust(w)] and [s.rjust(w)], the padding of [{s:40}] and [{n:4}]. *)
Definition ljust (w : nat) (s : str) : str := s ++ replicate (w - length s) 32%N.
Definition rjust (w : nat) (s : str) : str := replicate (w - length s) 32%N ++ s.

(** ** Exceptions *)

Inductive exn_kind :=
  | IndexError | ValueError | AssertionError | ZeroDivisionError
  | JSONDecodeError | OperationalError | SystemExit | KeyboardInterrupt.

(** [During e context]: [e] was raised while [context] was being handled
    (Python records [context] as [e.__context__]). *)
Inductive exn :=
  | Exn (kind : exn_kind) (msg : str)
  | During (e : exn) (context : exn).

(** [carries e cause]: [cause] is [e] itself or is on its context chain. *)
Fixpoint carries (e cause : exn) : Prop :=
  e = cause ∨ match e with
              | Exn _ _ => False
              | During e' context => carries e' cause ∨ carries context cause
              end.

(** [isinstance(e, Exception)]: what [except Exception] catches. *)
Fixpoint is_exception (e : exn) : bool :=
  match e with
  | Exn SystemExit _ | Exn KeyboardInterrupt _ => false
  | Exn _ _ => true
  | During e' _ => is_exception e'
  end.

(** [str(e)]. *)
Fixpoint str_of_exn (e : exn) : str :=
  match e with
  | Exn _ msg => msg
  | During e' _ => str_of_exn e'
  end.

Inductive result (A : Type) :=
  | Ok (a : A)
  | Raise (e : exn).
Arguments Ok {A} a.
Arguments Raise {A} e.

#[global] Instance result_ret : MRet result := λ A a, Ok a.
#[global] Instance result_bind : MBind result := λ A B f r,
  match r with
  | Ok a => f a
  | Raise e => Raise e
  end.

Definition index_error {A} : result A :=
  Raise (Exn IndexError (lit "list index out of range")).

(** [l[0]]. *)
Definition first_item {A} (l : list A) : result A :=
  match l with
  | [] => index_error
  | x :: _ => Ok x
  end.

(** [min(xs)]: raises on an empty sequence. *)
Definition py_min (xs : list Z) : result Z :=
  match xs with
  | [] => Raise (Exn ValueError (lit "min() arg is an empty sequence"))
  | x :: xs' => Ok (foldl Z.min x xs')
  end.

(** [all(bs)] and [any(bs)]. *)
Definition py_all (bs : list bool) : bool := forallb (λ b, b) bs.
Definition py_any (bs : list bool) : bool := existsb (λ b, b) bs.

(** [needle in haystack] on strings. *)
Definition substring (needle haystack : str) : Prop :=
  ∃ pre post, haystack = pre ++ needle ++ post.

(** ** The data model *)

Record Feature := {
  id : Z;
  priority : Z;
  category : str;
  name : str;
  description : str;
  steps : list str;
  passes : bool;
  in_progress : bool;
  blocked_by_intervention_id : option Z;
  deferred : bool;
}.

(** The dict returned by [get_consolidation_rules]: each key may be absent. *)
Record Rules := {
  target_count : option Z;
  groups : option (list (nat * nat * str));
  consolidation_factor : option Z;
}.

(** ** Consolidation rules *)

Definition rules : gmap str Rules :=
  {[ lit "Audio System" :=
       {| target_count := Some 12%Z;
          groups := Some [
            (0, 10, lit "Setup Audio Infrastructure");
            (10, 18, lit "Implement Sound Effects System");
            (18, 25, lit "Implement Music System");
            (25, 38, lit "Add UI Sound Effects");
            (38, 50, lit "Add Snake Game Audio");
            (50, 62, lit "Add Tetris Game Audio");
            (62, 72, lit "Add Arcade-Wide Audio");
            (72, 78, lit "Implement Audio Accessibility");
            (78, 85, lit "Optimize Audio Performance");
            (85, 92, lit "Create Audio UI Components");
            (92, 100, lit "Implement Audio Persistence & Mixing") ];
          consolidation_factor := None |};
     lit "default" :=
       {| target_count := None; groups := None;
          consolidation_factor := Some 3%Z |} ]}.

Definition get_consolidation_rules (category : str) (feature_count : nat) : Rules :=
  match rules !! category with
  | Some r => r
  | None =>
      {| target_count := Some (Z.max 3 (Z.of_nat (feature_count `div` 3)));
         groups := None;
         consolidation_factor := Some 3%Z |}
  end.

(** ** Merging a group *)

Definition status_icon (child : Feature) : str :=
  if passes child then [CHECK_MARK] else [WHITE_CIRCLE].

Definition marker_line (child : Feature) : str :=
  lit "[" ++ status_icon child ++ lit "] " ++ name child.

Definition indented (step : str) : str := lit "    - " ++ step.

Definition merge_steps (child_features : list Feature) : list str :=
  child ← child_features; marker_line child :: (indented <$> steps child).

(** The [name] argument of the parent: [split()[0]] raises on an empty
    word list, but only a group of more than one record evaluates it. *)
Definition parent_name (first : Feature) (group : list Feature) : result str :=
  if decide (1 < length group)
  then word ← first_item (split (name first));
       Ok (lit "Implement " ++ word ++ lit " Subsystem")
  else Ok (name first).

Definition parent_description (group : list Feature) : str :=
  lit "Bundle of " ++ str_of_nat (length group) ++ lit " related features:" ++ [10%N]
  ++ join [10%N] ((λ f, lit "- " ++ name f) <$> group).

(** The [Feature(...)] built for one group, its arguments evaluated in
    the order they are written. *)
Definition make_parent (category : str) (group : list Feature) : result Feature :=
  first ← first_item group;
  prio ← py_min (priority <$> group);
  nm ← parent_name first group;
  Ok {| id := id first;
        priority := prio;
        category := category;
        name := nm;
        description := parent_description group;
        steps := merge_steps group;
        passes := py_all (passes <$> group);
        in_progress := py_any (in_progress <$> group);
        blocked_by_intervention_id := None;
        deferred := py_any (deferred <$> group) |}.

Definition chunk_factor (n : nat) : nat := if decide (50 < n) then 4 else 3.

Definition chunks (features : list Feature) : list (list Feature) :=
  let factor := chunk_factor (length features) in
  (λ i, slice features i (i + factor)) <$> range 0 (length features) factor.

Definition consolidate_category (features : list Feature) (category : str)
    : result (list Feature) :=
  if decide (length features ≤ 3) then Ok features
  else
    let rules := get_consolidation_rules category (length features) in
    match consolidation_factor rules with
    | Some _ => mapM (make_parent category) (chunks features)
    | None => Ok features
    end.

(** ** Consolidating the whole table *)

(** [by_category]: a dict keeps its keys in insertion order, and
    [by_category[f.category].append(f)] extends the list under the key. *)
Fixpoint dict_append (by_category : list (str * list Feature)) (f : Feature)
    : list (str * list Feature) :=
  match by_category with
  | [] => [(category f, [f])]
  | (c, fs) :: rest =>
      if decide (c = category f) then (c, fs ++ [f]) :: rest
      else (c, fs) :: dict_append rest f
  end.

Definition group_by_category (features : list Feature) : list (str * list Feature) :=
  foldl dict_append [] features.

(** [a <= b] on strings: lexicographic on code points. *)
Fixpoint str_le (a b : str) : bool :=
  match a, b with
  | [], _ => true
  | _ :: _, [] => false
  | x :: a', y :: b' =>
      if (x <? y)%N then true else if (y <? x)%N then false else str_le a' b'
  end.

(** The order [sorted(by_category.items())] uses: the keys are distinct,
    so the comparison of two items is decided by their keys. *)
Definition item_le (a b : str * list Feature) : Prop := str_le a.1 b.1.

#[global] Instance item_le_dec : RelDecision item_le.
Proof. intros a b. unfold item_le. apply _. Defined.

Record CategoryStats := {
  cat_before : nat;
  cat_after : nat;
  reduction : str;
}.

Record Stats := {
  before : nat;
  after : nat;
  by_category : list (str * CategoryStats);
}.

(** What the script takes from the Python runtime and its libraries:
    [json.loads] and [json.dumps] on the [steps] column, the float
    formatting [f"{num / den * 100:.1f}%"] for a non-zero [den], and the
    text of [parser.print_help()]. *)
Class Runtime := {
  json_loads : str → result (list str);
  json_dumps : list str → str;
  percent : Z → Z → str;
  help_text : str;
}.

Section consolidation.
Context `{Runtime}.

(** [f"{(before - after) / before * 100:.1f}%"]. *)
Definition reduction_percent (before after : nat) : result str :=
  if decide (before = 0)
  then Raise (Exn ZeroDivisionError (lit "division by zero"))
  else Ok (percent (Z.of_nat before - Z.of_nat after) (Z.of_nat before)).

(** One round of the loop over the sorted categories; the accumulator is
    [consolidated_all] and [stats["by_category"]]. *)
Definition consolidate_step
    (acc : list Feature * list (str * CategoryStats))
    (item : str * list Feature)
    : result (list Feature * list (str * CategoryStats)) :=
  let '(category, cat_features) := item in
  let before_count := length cat_features in
  consolidated ← consolidate_category cat_features category;
  let after_count := length consolidated in
  red ← reduction_percent before_count after_count;
  Ok (acc.1 ++ consolidated,
      acc.2 ++ [(category, {| cat_before := before_count;
                              cat_after := after_count;
                              reduction := red |})]).

Fixpoint consolidate_loop
    (items : list (str * list Feature))
    (acc : list Feature * list (str * CategoryStats))
    : result (list Feature * list (str * CategoryStats)) :=
  match items with
  | [] => Ok acc
  | item :: rest => acc' ← consolidate_step acc item; consolidate_loop rest acc'
  end.

(** [consolidate_all] once the features are loaded. *)
Definition consolidate_features (features : list Feature)
    : result (list Feature * Stats) :=
  let by_category := group_by_category features in
  '(consolidated_all, stats_by_category) ←
    consolidate_loop (merge_sort item_le by_category) ([], []);
  Ok (consolidated_all,
      {| before := length features;
         after := length consolidated_all;
         by_category := stats_by_category |}).
End consolidation.

(** ** The store *)

(** SQLite, as far as the script relies on it. The statements of the
    script are the only ones modelled. A transaction is opened by BEGIN
    and closed by COMMIT or ROLLBACK; what is written inside it, DDL
    included, is seen by the other readers of the database at COMMIT and
    not before, and is dropped by ROLLBACK. Outside a transaction every
    statement commits by itself. The sqlite3 module adds nothing to this
    here: the script opens its transaction itself, and from Python 3.6 on
    (which the f-strings of the script need) the module does not commit
    before a DDL statement. *)

(** A row of [features], with the column types of the table: integers,
    text, and NULL where the column allows it. *)
Record Row := {
  r_id : Z;
  r_priority : Z;
  r_category : str;
  r_name : str;
  r_description : str;
  r_steps : option str;
  r_passes : Z;
  r_in_progress : Z;
  r_blocked_by_intervention_id : option Z;
  r_deferred : Z;
}.

Abbreviation tables := (gmap string (list Row)).

(** What can go wrong in a statement for reasons outside the script
    (connection loss, full disk, a failed write). [FailAbort]: SQLite
    also rolls the open transaction back by itself. *)
Inductive fault :=
  | NoFault
  | Fail (e : exn)
  | FailAbort (e : exn).

(** The database as the connection sees it. [committed] is what any
    reader of the file observes; [working] is the state inside the open
    transaction, if one is open; [faults] says how the coming statements
    fail, one entry per statement. *)
Record conn := {
  committed : tables;
  working : option tables;
  faults : list fault;
}.

Definition view (c : conn) : tables :=
  match working c with
  | Some t => t
  | None => committed c
  end.

Definition set_view (c : conn) (t : tables) : conn :=
  match working c with
  | Some _ => {| committed := committed c; working := Some t; faults := faults c |}
  | None => {| committed := t; working := None; faults := faults c |}
  end.

Definition set_working (c : conn) (w : option tables) : conn :=
  {| committed := committed c; working := w; faults := faults c |}.

Definition set_faults (c : conn) (fs : list fault) : conn :=
  {| committed := committed c; working := working c; faults := fs |}.

Inductive stmt :=
  | BEGIN_TRANSACTION
  | COMMIT
  | ROLLBACK
  | SELECT_ORDER_BY_PRIORITY (table : string)
  | CREATE_TABLE_AS_EMPTY (table source : string)
  | INSERT_INTO (table : string) (row : Row)
  | DROP_TABLE_IF_EXISTS (table : string)
  | ALTER_TABLE_RENAME (table new_name : string).

(** [sqlite3.OperationalError(msg)]. *)
Definition operational_error {A} (msg : string) : result A :=
  Raise (Exn OperationalError (lit msg)).

Definition priority_le (a b : Row) : Prop := (r_priority a ≤ r_priority b)%Z.

#[global] Instance priority_le_dec : RelDecision priority_le.
Proof. intros a b. unfold priority_le. apply _. Defined.

(** SQLite's behaviour on one statement, without faults. *)
Definition apply_stmt (s : stmt) (c : conn) : conn * result (list Row) :=
  match s with
  | BEGIN_TRANSACTION =>
      match working c with
      | Some _ => (c, operational_error "cannot start a transaction within a transaction")
      | None => (set_working c (Some (committed c)), Ok [])
      end
  | COMMIT =>
      match working c with
      | Some t => ({| committed := t; working := None; faults := faults c |}, Ok [])
      | None => (c, operational_error "cannot commit - no transaction is active")
      end
  | ROLLBACK =>
      match working c with
      | Some _ => (set_working c None, Ok [])
      | None => (c, operational_error "cannot rollback - no transaction is active")
      end
  | SELECT_ORDER_BY_PRIORITY table =>
      match view c !! table with
      | Some rows => (c, Ok (merge_sort priority_le rows))
      | None => (c, operational_error ("no such table: " +:+ table))
      end
  | CREATE_TABLE_AS_EMPTY table source =>
      match view c !! table, view c !! source with
      | Some _, _ => (c, operational_error ("table " +:+ table +:+ " already exists"))
      | None, None => (c, operational_error ("no such table: " +:+ source))
      | None, Some _ => (set_view c (<[table := []]> (view c)), Ok [])
      end
  | INSERT_INTO table row =>
      match view c !! table with
      | Some rows => (set_view c (<[table := rows ++ [row]]> (view c)), Ok [])
      | None => (c, operational_error ("no such table: " +:+ table))
      end
  | DROP_TABLE_IF_EXISTS table => (set_view c (delete table (view c)), Ok [])
  | ALTER_TABLE_RENAME table new_name =>
      match view c !! table, view c !! new_name with
      | None, _ => (c, operational_error ("no such table: " +:+ table))
      | Some _, Some _ =>
          (c, operational_error
                ("there is already another table or index with this name: " +:+ new_name))
      | Some rows, None =>
          (set_view c (<[new_name := rows]> (delete table (view c))), Ok [])
      end
  end.

(** ** The script's effects: the connection, the printed lines, exceptions *)

Definition M (A : Type) : Type := conn → conn * list str * result A.

#[global] Instance M_ret : MRet M := λ A a c, (c, [], Ok a).
#[global] Instance M_bind : MBind M := λ A B f m c,
  match m c with
  | (c', out, Ok a) =>
      match f a c' with
      | (c'', out', r) => (c'', out ++ out', r)
      end
  | (c', out, Raise e) => (c', out, Raise e)
  end.

Definition print (line : str) : M unit := λ c, (c, [line], Ok ()).
Definition raise {A} (e : exn) : M A := λ c, (c, [], Raise e).
Definition lift {A} (r : result A) : M A := λ c, (c, [], r).

(** [try: body except Exception as e: handler(e)]. *)
Definition try_except {A} (body : M A) (handler : exn → M A) : M A := λ c,
  match body c with
  | (c', out, Ok a) => (c', out, Ok a)
  | (c', out, Raise e) =>
      if is_exception e
      then match handler e c' with
           | (c'', out', r) => (c'', out ++ out', r)
           end
      else (c', out, Raise e)
  end.

(** An exception raised inside an [except] block has the handled one as
    its context. *)
Definition handling {A} (e : exn) (m : M A) : M A := λ c,
  match m c with
  | (c', out, Raise e') => (c', out, Raise (During e' e))
  | ok => ok
  end.

(** [cursor.execute(s)] and, for a query, [cursor.fetchall()]. *)
Definition execute (s : stmt) : M (list Row) := λ c,
  match faults c with
  | Fail e :: rest => (set_faults c rest, [], Raise e)
  | FailAbort e :: rest => (set_working (set_faults c rest) None, [], Raise e)
  | NoFault :: rest =>
      let '(c', r) := apply_stmt s (set_faults c rest) in (c', [], r)
  | [] => let '(c', r) := apply_stmt s c in (c', [], r)
  end.

(** [for s in script: cursor.execute(s)]. *)
Fixpoint execute_all (script : list stmt) : M unit :=
  match script with
  | [] => mret ()
  | s :: rest => _ ← execute s; execute_all rest
  end.

(** [sqlite3.connect(db_path)]: a new connection has no open transaction. *)
Definition connect : M unit := λ c, (set_working c None, [], Ok ()).

(** [conn.close()]: what was not committed is dropped. *)
Definition close : M unit := λ c, (set_working c None, [], Ok ()).

(** ** FeatureConsolidator *)

Section script.
Context `{Runtime}.

(** [bool(x)] of an integer column. *)
Definition truthy (x : Z) : bool := negb (x =? 0)%Z.

Definition from_row (row : Row) : result Feature :=
  steps ← match r_steps row with
          | Some (c :: text) => json_loads (c :: text)
          | Some [] | None => Ok []
          end;
  Ok {| id := r_id row;
        priority := r_priority row;
        category := r_category row;
        name := r_name row;
        description := r_description row;
        steps := steps;
        passes := truthy (r_passes row);
        in_progress := truthy (r_in_progress row);
        blocked_by_intervention_id := r_blocked_by_intervention_id row;
        deferred := truthy (r_deferred row) |}.

Definition get_all_features : M (list Feature) :=
  rows ← execute (SELECT_ORDER_BY_PRIORITY "features");
  lift (mapM from_row rows).

Definition consolidate_all (dry_run : bool) : M (list Feature * Stats) :=
  features ← get_all_features;
  lift (consolidate_features features).

(** [sum(len(f.steps) for f in features)]. *)
Definition total_steps (features : list Feature) : nat :=
  sum_list_with (λ f, length (steps f)) features.

(** The line [validate] prints when the steps got fewer. *)
Definition WARNING_LINE : str :=
  WARNING_SIGN :: lit " Warning: Step count decreased! May have lost data.".

(** [assert cond, msg]. *)
Definition assert (cond : bool) (msg : str) : M unit :=
  if cond then mret () else raise (Exn AssertionError msg).

Definition validate (original consolidated : list Feature) : M unit :=
  let orig_steps := total_steps original in
  let cons_steps := total_steps consolidated in
  _ ← print (10%N :: lit "=== Validation ===");
  _ ← print (lit "Original features: " ++ str_of_nat (length original));
  _ ← print (lit "Consolidated features: " ++ str_of_nat (length consolidated));
  _ ← print (lit "Original steps: " ++ str_of_nat orig_steps);
  _ ← print (lit "Consolidated steps: " ++ str_of_nat cons_steps);
  _ ← assert (bool_decide (length consolidated < length original))
        (lit "No consolidation happened!");
  _ ← assert (bool_decide (250 ≤ length consolidated) && bool_decide (length consolidated ≤ 600))
        (lit "Target range missed: " ++ str_of_nat (length consolidated));
  _ ← (if decide (cons_steps < orig_steps)
       then print WARNING_LINE
       else
         let step_increase := cons_steps - orig_steps in
         print (CHECK_MARK :: lit " Steps preserved (" ++ str_of_nat step_increase
                ++ lit " parent names added)"));
  print (CHECK_MARK :: lit " Validation passed!").

(** The parameters of the INSERT. *)
Definition to_row (f : Feature) : Row :=
  {| r_id := id f;
     r_priority := priority f;
     r_category := category f;
     r_name := name f;
     r_description := description f;
     r_steps := Some (json_dumps (steps f));
     r_passes := Z.b2z (passes f);
     r_in_progress := Z.b2z (in_progress f);
     r_blocked_by_intervention_id := blocked_by_intervention_id f;
     r_deferred := Z.b2z (deferred f) |}.

(** The statements of the [try] block, in order. *)
Definition migration_statements (consolidated : list Feature) : list stmt :=
  [BEGIN_TRANSACTION; CREATE_TABLE_AS_EMPTY "features_consolidated" "features"]
  ++ ((λ f, INSERT_INTO "features_consolidated" (to_row f)) <$> consolidated)
  ++ [DROP_TABLE_IF_EXISTS "features_old";
      ALTER_TABLE_RENAME "features" "features_old";
      ALTER_TABLE_RENAME "features_consolidated" "features";
      COMMIT].

Definition execute_migration (consolidated : list Feature) : M unit :=
  _ ← print (10%N :: lit "=== Executing Migration ===");
  try_except
    (_ ← execute_all (migration_statements consolidated);
     print (CHECK_MARK :: lit " Migration successful!"))
    (λ e,
      _ ← handling e (execute ROLLBACK);
      _ ← print (BALLOT_X :: lit " Migration failed: " ++ str_of_exn e);
      raise e).

(** The parsed arguments; [execute_flag] is [args.execute]. *)
Record Args := {
  dry_run : bool;
  execute_flag : bool;
  db : str;
}.

Definition print_category_line (entry : str * CategoryStats) : M unit :=
  let '(cat, cat_stats) := entry in
  print (lit "  " ++ ljust 40 cat ++ lit " " ++ rjust 4 (str_of_nat (cat_before cat_stats))
         ++ [32%N; 8594%N; 32%N] ++ rjust 3 (str_of_nat (cat_after cat_stats))
         ++ lit " (" ++ reduction cat_stats ++ lit ")").

Fixpoint print_category_lines (entries : list (str * CategoryStats)) : M unit :=
  match entries with
  | [] => mret ()
  | entry :: rest => _ ← print_category_line entry; print_category_lines rest
  end.

Definition main (args : Args) : M unit :=
  _ ← (if negb (dry_run args) && negb (execute_flag args)
       then _ ← print help_text; raise (Exn SystemExit (lit "1"))
       else mret ());
  _ ← connect;
  _ ← print (lit "=== Feature Consolidation ===");
  _ ← print (lit "Mode: " ++ (if dry_run args then lit "DRY RUN" else lit "EXECUTE"));
  _ ← print (lit "Database: " ++ db args);
  _ ← print [];
  original ← get_all_features;
  '(consolidated, stats) ← consolidate_all (dry_run args);
  _ ← print (10%N :: lit "=== Consolidation Stats ===");
  _ ← print (lit "Original: " ++ str_of_nat (before stats) ++ lit " features");
  _ ← print (lit "Consolidated: " ++ str_of_nat (after stats) ++ lit " features");
  overall ← lift (reduction_percent (before stats) (after stats));
  _ ← print (lit "Reduction: " ++ overall);
  _ ← print (10%N :: lit "By Category:");
  _ ← print_category_lines (take 10 (by_category stats));
  _ ← validate original consolidated;
  _ ← (if execute_flag args
       then execute_migration consolidated
       else print (10%N :: lit "(Dry run - no changes made)"));
  close.
End script.

(** * Vocabulary of the properties *)

(** The call returned. *)
Definition is_Ok {A} (r : result A) : Prop := ∃ a, r = Ok a.

(** A string with no word in it: empty, or white space only. *)
Definition blank (s : str) : bool := forallb isspace s.

(** The number of chunks of [f] records in [n] records. *)
Definition ceil_div (n f : nat) : nat := (n + (f - 1)) `div` f.

(** The one category with a hand-written partition in [rules]. *)
Definition AUDIO_SYSTEM : str := lit "Audio System".

(** How a parent relates to the group it was built from. *)
Record merged_from (group : list Feature) (parent : Feature) : Prop := {
  merged_id : ∃ first, head group = Some first ∧ id parent = id first;
  merged_priority_in : ∃ f, f ∈ group ∧ priority parent = priority f;
  merged_priority_le : ∀ f, f ∈ group → (priority parent ≤ priority f)%Z;
  merged_passes : passes parent = true ↔ ∀ f, f ∈ group → passes f = true;
  merged_in_progress : in_progress parent = true ↔ ∃ f, f ∈ group ∧ in_progress f = true;
  merged_deferred : deferred parent = true ↔ ∃ f, f ∈ group ∧ deferred f = true;
  merged_blocked : blocked_by_intervention_id parent = None;
}.

(** The step [s] can be found in the [steps] of [r]: it is a substring of
    one of its lines. *)
Definition locatable (s : str) (r : Feature) : Prop :=
  ∃ line, line ∈ steps r ∧ substring s line.

(** [s] can be found in the steps of one record of [out] and of no other. *)
Definition located_in_exactly_one (s : str) (out : list Feature) : Prop :=
  ∃ i, (∃ p, out !! i = Some p ∧ locatable s p)
       ∧ ∀ j q, out !! j = Some q → locatable s q → j = i.

(** Every group of more than one record starts with a record whose name
    has a word in it. *)
Definition heads_named (groups : list (list Feature)) : Prop :=
  Forall (λ group, 1 < length group →
                   ∀ first, head group = Some first → blank (name first) = false)
    groups.

(** Every record has a name with a word in it. *)
Definition all_named (features : list Feature) : Prop :=
  Forall (λ f, blank (name f) = false) features.

(** The connection after [m]. *)
Definition state_after {A} (m : M A) (c : conn) : conn := (m c).1.1.

(** [m] takes every connection to one related to it by [R]. *)
Definition keeps (R : relation conn) {A} (m : M A) : Prop :=
  ∀ c, R c (state_after m c).

(** Nothing changed that another reader of the database can see. *)
Definition same_committed : relation conn := λ c c', committed c' = committed c.

(** A connection without open transaction and without faults to come is
    left exactly as it was. *)
Definition untouched : relation conn := λ c c',
  working c = None → faults c = [] → c' = c.

(** The statements between BEGIN and COMMIT. *)
Definition body_stmt (s : stmt) : Prop :=
  match s with
  | BEGIN_TRANSACTION | COMMIT | ROLLBACK => False
  | _ => True
  end.

(** The statements of the migration between BEGIN and COMMIT. *)
Definition migration_body `{Runtime} (consolidated : list Feature) : list stmt :=
  CREATE_TABLE_AS_EMPTY "features_consolidated" "features"
  :: ((λ f, INSERT_INTO "features_consolidated" (to_row f)) <$> consolidated)
  ++ [DROP_TABLE_IF_EXISTS "features_old";
      ALTER_TABLE_RENAME "features" "features_old";
      ALTER_TABLE_RENAME "features_consolidated" "features"].

(** Reading a line of merged steps back: a step line is [indented], a
    marker line is "[", the status glyph, "] " and the name of the child. *)
Definition unindent (line : str) : option str :=
  if decide (take 6 line = lit "    - ") then Some (drop 6 line) else None.

Definition read_marker (line : str) : option (bool * str) :=
  match line with
  | 91%N :: glyph :: 93%N :: 32%N :: name =>
      if decide (glyph = CHECK_MARK) then Some (true, name)
      else if decide (glyph = WHITE_CIRCLE) then Some (false, name)
      else None
  | _ => None
  end.

(** The record [f] under another category. *)
Definition with_category (cat : str) (f : Feature) : Feature :=
  {| id := id f; priority := priority f; category := cat; name := name f;
     description := description f; steps := steps f; passes := passes f;
     in_progress := in_progress f;
     blocked_by_intervention_id := blocked_by_intervention_id f;
     deferred := deferred f |}.

(** [w] is the first word of [s]: white space before it, none in it, and
    white space or the end of [s] after it. *)
Definition first_word (w s : str) : Prop :=
  w ≠ [] ∧ forallb (λ c, negb (isspace c)) w = true
  ∧ ∃ pre post, s = pre ++ w ++ post ∧ blank pre = true
                ∧ match post with [] => True | c :: _ => isspace c = true end.

(** The runtime reads the steps of [f] back as it wrote them. *)
Definition reads_back `{Runtime} (f : Feature) : Prop :=
  json_dumps (steps f) ≠ [] ∧ json_loads (json_dumps (steps f)) = Ok (steps f).



(** [m] changes the committed tables only by returning. *)
Definition commits_only_on_return {A} (m : M A) : Prop :=
  ∀ c c' out e, m c = (c', out, Raise e) → committed c' = committed c.

(** Ascending priorities. *)
Definition by_priority (a b : Feature) : Prop := (priority a ≤ priority b)%Z.

(** Where a record stands in the table: its id, its priority and its
    category. *)
Definition slot (f : Feature) : Z * Z * str := (id f, priority f, category f).

(** The records of the categories that the statistics show as reduced. *)
Definition records_merged (entries : list (str * CategoryStats)) : nat :=
  sum_list_with
    (λ entry, if decide (cat_after entry.2 < cat_before entry.2)
              then cat_before entry.2 else 0)
    entries.

(** * Worked inputs *)

(** A record as the seed scripts insert it: not passing, not in progress. *)
Definition seeded (i : Z) (cat nm : string) (st : list string) : Feature :=
  {| id := i; priority := i; category := lit cat; name := lit nm;
     description := lit nm; steps := lit <$> st;
     passes := false; in_progress := false;
     blocked_by_intervention_id := None; deferred := false |}.

(** A category without rules of its own. *)
Definition WALLET : str := lit "Wallet".

(** Four records of a category without rules of its own; the first and
    the last share a step. *)
Definition wallet_features : list Feature := [
  seeded 1 "Wallet" "Connect wallet button" ["Add the button"; "Run the tests"];
  seeded 2 "Wallet" "Show wallet balance" ["Read the balance"];
  seeded 3 "Wallet" "Disconnect wallet" ["Clear the session"];
  seeded 4 "Wallet" "Switch network" ["Run the tests"] ].

(** The same category with a first record whose name is white space. *)
Definition unnamed_features : list Feature := [
  seeded 1 "Wallet" "  " ["Add the button"];
  seeded 2 "Wallet" "Show wallet balance" [];
  seeded 3 "Wallet" "Disconnect wallet" [];
  seeded 4 "Wallet" "Switch network" [] ].

(** A group of three with [passes] true, true, false and [in_progress]
    false, false, true, and a fourth record. *)
Definition status_features : list Feature := [
  {| id := 10; priority := 7; category := lit "Wallet"; name := lit "Connect wallet";
     description := []; steps := []; passes := true; in_progress := false;
     blocked_by_intervention_id := Some 3%Z; deferred := false |};
  {| id := 11; priority := 5; category := lit "Wallet"; name := lit "Show balance";
     description := []; steps := []; passes := true; in_progress := false;
     blocked_by_intervention_id := None; deferred := false |};
  {| id := 12; priority := 6; category := lit "Wallet"; name := lit "Disconnect";
     description := []; steps := []; passes := false; in_progress := true;
     blocked_by_intervention_id := None; deferred := false |};
  seeded 13 "Wallet" "Switch network" [] ].

(** Four of the records of category "Audio System". *)
Definition audio_features : list Feature := [
  seeded 791 "Audio System" "Install Howler.js for audio management"
    ["Run npm install howler in the project directory"; "Verify installation in package.json"];
  seeded 792 "Audio System" "Create AudioManager singleton class"
    ["Create src/lib/audio/AudioManager.ts"];
  seeded 793 "Audio System" "Implement audio context initialization"
    ["Create initAudioContext method"];
  seeded 794 "Audio System" "Add audio loading system"
    ["Create loadSound method"] ].

(** 300 records without steps that stand for 400 records with one step
    each: a consolidated table that lost its steps. *)
Definition with_step : Feature := seeded 1 "Wallet" "Connect wallet" ["Add the button"].
Definition without_step : Feature := seeded 1 "Wallet" "Connect wallet" [].

(** [text.split("\n")]. *)
Fixpoint lines_from (line : str) (text : str) : list str :=
  match text with
  | [] => [line]
  | c :: text' =>
      if (c =? 10)%N then line :: lines_from [] text' else lines_from (line ++ [c]) text'
  end.

(** A runtime for the worked examples, with the steps stored one per
    line and the percentage cut to a whole number. The theorems hold for
    every runtime. *)
Definition example_runtime : Runtime :=
  {| json_loads := λ text, Ok (lines_from [] text);
     json_dumps := join [10%N];
     percent := λ num den, str_of_nat (Z.to_nat (num * 100 / den)) ++ lit ".0%";
     help_text := lit "usage: consolidate_features.py [-h] [--dry-run] [--execute] [--db DB]" |}.

(** Two rows of [features]. *)
Definition stored_rows : list Row := [
  {| r_id := 1; r_priority := 1; r_category := lit "Wallet";
     r_name := lit "Connect wallet button"; r_description := [];
     r_steps := Some (lit "Add the button"); r_passes := 0; r_in_progress := 0;
     r_blocked_by_intervention_id := None; r_deferred := 0 |};
  {| r_id := 2; r_priority := 2; r_category := lit "Wallet";
     r_name := lit "Show wallet balance"; r_description := [];
     r_steps := None; r_passes := 1; r_in_progress := 0;
     r_blocked_by_intervention_id := None; r_deferred := 0 |} ].

(** SQLITE_FULL, as the sqlite3 module raises it. *)
Definition DISK_FULL : exn := Exn OperationalError (lit "database or disk is full").

(** A store with these rows, on a fresh connection. *)
Definition healthy_store : conn :=
  {| committed := {[ "features" := stored_rows ]}; working := None; faults := [] |}.

(** The same store on a connection whose fourth statement fails: in
    [execute_migration] that is the second INSERT, after the first row
    went into the staging table. *)
Definition failing_store : conn :=
  {| committed := {[ "features" := stored_rows ]}; working := None;
     faults := [NoFault; NoFault; NoFault; Fail DISK_FULL] |}.

(** A database without tables. *)
Definition empty_store : conn :=
  {| committed := ∅; working := None; faults := [] |}.

(** Two parents to be written by the migration. *)
Definition merged_rows : list Feature := [
  seeded 7 "Wallet" "Implement Connect Subsystem" ["[ ] Connect wallet button"; "    - Add the button"];
  seeded 8 "Wallet" "Switch network" [] ].

(** [--dry-run] alone. *)
Definition preview_args : Args :=
  {| dry_run := true; execute_flag := false; db := lit "features.db" |}.

(** [--execute] alone. *)
Definition execute_args : Args :=
  {| dry_run := false; execute_flag := true; db := lit "features.db" |}.

(** Two categories in one table, the later name first. *)
Definition mixed_features : list Feature := wallet_features ++ audio_features.

(** A table of [n] records of one category, numbered from 1, with one
    step each. *)
Definition numbered_features (n : nat) : list Feature :=
  (λ i : nat, seeded (Z.of_nat i) "Wallet" "Connect wallet" ["Add the button"])
    <$> seq 1 n.



(** A database whose table [features] has no rows. *)
Definition vacant_store : conn :=
  {| committed := {[ "features" := [] ]}; working := None; faults := [] |}.

(** * Properties *)

(** ** The embedding on small inputs *)

Example split_words :
  split (lit "  Connect  wallet button ") = [lit "Connect"; lit "wallet"; lit "button"].
Proof. reflexivity. Qed.

Example split_blank : split (lit "  ") = [] ∧ split [] = [] ∧ split [160%N; 9%N] = [].
Proof. by repeat split. Qed.

Example range_by_three : range 0 10 3 = [0; 3; 6; 9] ∧ range 0 9 3 = [0; 3; 6].
Proof. by split. Qed.

Example slice_past_the_end : slice [1; 2; 3; 4] 3 6 = [4] ∧ slice [1; 2; 3; 4] 0 3 = [1; 2; 3].
Proof. by split. Qed.

Example str_le_order :
  str_le (lit "Audio System") (lit "Wallet") = true
  ∧ str_le (lit "Wallet") (lit "Audio System") = false
  ∧ str_le (lit "Wallet") (lit "Wallets") = true
  ∧ str_le (lit "Zebra") (lit "apple") = true.
Proof. by repeat split. Qed.

Example parent_of_wallet_chunk :
  ∃ parent,
    make_parent WALLET (take 3 wallet_features) = Ok parent
    ∧ name parent = lit "Implement Connect Subsystem"
    ∧ description parent
      = lit "Bundle of 3 related features:" ++ [10%N]
        ++ lit "- Connect wallet button" ++ [10%N]
        ++ lit "- Show wallet balance" ++ [10%N]
        ++ lit "- Disconnect wallet"
    ∧ steps parent
      = [ lit "[" ++ [WHITE_CIRCLE] ++ lit "] Connect wallet button";
          lit "    - Add the button";
          lit "    - Run the tests";
          lit "[" ++ [WHITE_CIRCLE] ++ lit "] Show wallet balance";
          lit "    - Read the balance";
          lit "[" ++ [WHITE_CIRCLE] ++ lit "] Disconnect wallet";
          lit "    - Clear the session" ].
Proof. eexists. split; [reflexivity|]. by repeat split. Qed.

Example single_record_chunk_keeps_its_name :
  ∃ parent,
    make_parent WALLET (drop 3 wallet_features) = Ok parent
    ∧ name parent = lit "Switch network"
    ∧ steps parent = [ lit "[" ++ [WHITE_CIRCLE] ++ lit "] Switch network";
                       lit "    - Run the tests" ].
Proof. eexists. split; [reflexivity|]. by split. Qed.

(** The categories come out in the order of their names, each with its
    own count: four "Wallet" records become two, the four "Audio System"
    records stay four. *)
Example categories_in_order :
  ∃ out stats,
    @consolidate_features example_runtime (wallet_features ++ audio_features) = Ok (out, stats)
    ∧ category <$> out
      = replicate 4 AUDIO_SYSTEM ++ replicate 2 WALLET
    ∧ before stats = 8 ∧ after stats = 6
    ∧ (λ entry, (entry.1, cat_before entry.2, cat_after entry.2)) <$> by_category stats
      = [(AUDIO_SYSTEM, 4, 4); (WALLET, 4, 2)].
Proof. eexists _, _. split; [vm_compute; reflexivity|]. by repeat split. Qed.

(** ** The result monad *)

Lemma mapM_Ok {A B} (f : A → result B) (l : list A) (k : list B) :
  mapM f l = Ok k ↔ Forall2 (λ x y, f x = Ok y) l k.
Proof.
  revert k. induction l as [|x l IH]; intros k; simpl.
  - split.
    + intros [= <-]. constructor.
    + intros Hk. inversion Hk. reflexivity.
  - split.
    + unfold mbind, result_bind at 1.
      destruct (f x) as [y|e] eqn:Hx; [|discriminate].
      unfold mbind, result_bind at 1.
      destruct (mapM f l) as [k'|e] eqn:Hl; [|discriminate].
      intros [= <-]. constructor; [assumption|]. apply IH. reflexivity.
    + intros Hk. inversion Hk as [|? y ? k' Hx Hl]; subst.
      apply IH in Hl. rewrite Hx. cbn. rewrite Hl. reflexivity.
Qed.

Lemma mapM_Raise_inv {A B} (f : A → result B) (l : list A) (e : exn) :
  mapM f l = Raise e → ∃ x, x ∈ l ∧ f x = Raise e.
Proof.
  induction l as [|x l IH]; simpl; [discriminate|].
  unfold mbind, result_bind at 1.
  destruct (f x) as [y|e'] eqn:Hx.
  - unfold mbind, result_bind at 1.
    destruct (mapM f l) as [k'|e'] eqn:Hl; [discriminate|].
    intros [= ->]. destruct IH as (x' & Hin & Hx'); [reflexivity|].
    exists x'. split; [by right | done].
  - intros [= ->]. exists x. split; [by left | done].
Qed.

Lemma mapM_is_Ok {A B} (f : A → result B) (l : list A) :
  is_Ok (mapM f l) ↔ Forall (λ x, is_Ok (f x)) l.
Proof.
  split.
  - intros [k Hk]. apply mapM_Ok in Hk.
    induction Hk; constructor; [by eexists | assumption].
  - induction 1 as [|x l [y Hy] _ [k Hk]]; [by exists []|].
    exists (y :: k). simpl. rewrite Hy. cbn. rewrite Hk. reflexivity.
Qed.

(** ** [split] *)

Lemma split_from_nil (word s : str) :
  split_from word s = [] ↔ word = [] ∧ blank s = true.
Proof.
  revert word. induction s as [|c s IH]; intros word; simpl.
  - destruct word; split; try done. by intros [??].
  - destruct (isspace c); simpl.
    + destruct word; [apply IH|]. split; [done|]. by intros [??].
    + rewrite IH. split; [|by intros [??]].
      intros [Hw _]. by destruct word.
Qed.

Lemma split_nil (s : str) : split s = [] ↔ blank s = true.
Proof. unfold split. rewrite split_from_nil. split; [by intros [_ ?] | done]. Qed.

Lemma first_item_split (s : str) :
  (blank s = true ∧ first_item (split s) = index_error)
  ∨ (blank s = false ∧ is_Ok (first_item (split s))).
Proof.
  destruct (split s) as [|w ws] eqn:Hs.
  - left. split; [by apply split_nil | done].
  - right. split; [|by exists w].
    destruct (blank s) eqn:Hb; [|done].
    apply split_nil in Hb. congruence.
Qed.

(** ** Chunks *)

Lemma chunk_factor_cases (n : nat) :
  (50 < n ∧ chunk_factor n = 4) ∨ (n ≤ 50 ∧ chunk_factor n = 3).
Proof. unfold chunk_factor. case_decide; lia. Qed.

Lemma chunk_factor_pos (n : nat) : 0 < chunk_factor n.
Proof. destruct (chunk_factor_cases n) as [[_ ->]|[_ ->]]; lia. Qed.

Lemma chunks_unfold (features : list Feature) :
  chunks features =
  (λ k, take (chunk_factor (length features))
          (drop (k * chunk_factor (length features)) features))
  <$> seq 0 (ceil_div (length features) (chunk_factor (length features))).
Proof.
  unfold chunks, range, slice, ceil_div. cbn zeta.
  rewrite Nat.sub_0_r, <- list_fmap_compose.
  apply list_fmap_ext. intros _ k _. simpl. f_equal. lia.
Qed.

Lemma length_chunks (features : list Feature) :
  length (chunks features) = ceil_div (length features) (chunk_factor (length features)).
Proof. rewrite chunks_unfold, length_fmap, length_seq. reflexivity. Qed.

Lemma ceil_div_cover (n f : nat) : 0 < f → n ≤ ceil_div n f * f.
Proof.
  intros Hf. unfold ceil_div.
  pose proof (Nat.div_mod (n + (f - 1)) f ltac:(lia)) as Hdm.
  pose proof (Nat.mod_upper_bound (n + (f - 1)) f ltac:(lia)) as Hm.
  nia.
Qed.

Lemma ceil_div_start (n f k : nat) : 0 < f → k < ceil_div n f → k * f < n.
Proof.
  intros Hf Hk. unfold ceil_div in Hk.
  destruct (decide (k * f < n)) as [|Hge]; [assumption|].
  assert ((n + (f - 1)) `div` f < S k); [|lia].
  apply Nat.Div0.div_lt_upper_bound. nia.
Qed.

Lemma join_slices {A} (l : list A) (f m : nat) :
  mjoin ((λ k, take f (drop (k * f) l)) <$> seq 0 m) = take (m * f) l.
Proof.
  induction m as [|m IH]; [done|].
  rewrite seq_S, fmap_app, join_app, IH. simpl.
  rewrite app_nil_r, take_take_drop. f_equal. lia.
Qed.

Lemma join_chunks (features : list Feature) : mjoin (chunks features) = features.
Proof.
  rewrite chunks_unfold, join_slices. apply take_ge.
  apply ceil_div_cover, chunk_factor_pos.
Qed.

Lemma chunks_nonempty (features : list Feature) :
  Forall (λ group, group ≠ [] ∧ length group ≤ chunk_factor (length features))
    (chunks features).
Proof.
  rewrite chunks_unfold. apply Forall_fmap, Forall_seq. intros k [_ Hk]. simpl.
  pose proof (chunk_factor_pos (length features)) as Hf.
  pose proof (ceil_div_start (length features) _ k Hf Hk) as Hlo.
  split.
  - intros Hnil. apply (f_equal length) in Hnil.
    rewrite length_take, length_drop in Hnil. simpl in Hnil. lia.
  - rewrite length_take. lia.
Qed.

Lemma ceil_div_lt (n : nat) : 3 < n → ceil_div n (chunk_factor n) < n.
Proof.
  intros Hn. unfold ceil_div.
  destruct (chunk_factor_cases n) as [[_ ->]|[_ ->]];
    apply Nat.Div0.div_lt_upper_bound; lia.
Qed.

(** ** The rules *)

Lemma rules_factor (category : str) (n : nat) :
  consolidation_factor (get_consolidation_rules category n)
  = if decide (category = AUDIO_SYSTEM) then None else Some 3%Z.
Proof.
  unfold get_consolidation_rules, rules.
  case_decide as Hc.
  - subst. by rewrite lookup_insert_eq.
  - rewrite lookup_insert_ne by done.
    destruct (decide (category = lit "default")) as [->|Hd].
    + by rewrite lookup_singleton_eq.
    + by rewrite lookup_singleton_ne.
Qed.

Lemma rules_groups (category : str) (n : nat) :
  is_Some (groups (get_consolidation_rules category n)) ↔ category = AUDIO_SYSTEM.
Proof.
  unfold get_consolidation_rules, rules.
  destruct (decide (category = AUDIO_SYSTEM)) as [->|Hc].
  - rewrite lookup_insert_eq. simpl. split; [done | by eexists].
  - rewrite lookup_insert_ne by done.
    destruct (decide (category = lit "default")) as [->|Hd].
    + rewrite lookup_singleton_eq. simpl. split; [by intros [? ?] | done].
    + rewrite lookup_singleton_ne by done. simpl. split; [by intros [? ?] | done].
Qed.

(** ** [consolidate_category], case by case *)

Lemma consolidate_category_small (features : list Feature) (category : str) :
  length features ≤ 3 → consolidate_category features category = Ok features.
Proof. intros Hn. unfold consolidate_category. by case_decide. Qed.

Lemma consolidate_category_no_factor (features : list Feature) :
  consolidate_category features AUDIO_SYSTEM = Ok features.
Proof.
  unfold consolidate_category. case_decide; [done|].
  cbn zeta. rewrite rules_factor. by case_decide.
Qed.

Lemma consolidate_category_chunked (features : list Feature) (category : str) :
  3 < length features → category ≠ AUDIO_SYSTEM →
  consolidate_category features category = mapM (make_parent category) (chunks features).
Proof.
  intros Hn Hc. unfold consolidate_category. case_decide; [lia|].
  cbn zeta. rewrite rules_factor. by case_decide.
Qed.

(** ** The merged parent *)

Lemma foldl_min_spec (x : Z) (xs : list Z) :
  foldl Z.min x xs ∈ x :: xs ∧ Forall (λ y, (foldl Z.min x xs ≤ y)%Z) (x :: xs).
Proof.
  revert x. induction xs as [|y xs IH]; intros x; simpl.
  - split; [by left | by constructor].
  - destruct (IH (Z.min x y)) as [Hin Hle]. split.
    + apply elem_of_cons in Hin as [Hm|Hin]; [|by do 2 right].
      rewrite Hm. destruct (Z.min_spec x y) as [[_ ->]|[_ ->]]; [by left | by right; left].
    + inversion Hle as [|? ? Hm Hxs]; subst.
      repeat constructor; [lia | lia | assumption].
Qed.

Lemma py_all_spec (bs : list bool) : py_all bs = true ↔ ∀ b, b ∈ bs → b = true.
Proof.
  unfold py_all. induction bs as [|b bs IH]; simpl.
  - split; [intros _ b Hb; by apply elem_of_nil in Hb | done].
  - rewrite andb_true_iff, IH. split.
    + intros [Hb Hbs] b' [->|Hin]%elem_of_cons; auto.
    + intros Hall. split; [apply Hall; by left | intros b' Hin; apply Hall; by right].
Qed.

Lemma py_any_spec (bs : list bool) : py_any bs = true ↔ true ∈ bs.
Proof.
  unfold py_any. induction bs as [|b bs IH]; simpl.
  - split; [done | by intros ?%elem_of_nil].
  - rewrite orb_true_iff, IH, elem_of_cons. split; intros [?|?]; auto.
Qed.

#[local] Arguments py_all : simpl never.
#[local] Arguments py_any : simpl never.

Lemma make_parent_Ok (cat : str) (group : list Feature) (parent : Feature) :
  make_parent cat group = Ok parent →
  merged_from group parent
  ∧ category parent = cat
  ∧ steps parent = merge_steps group.
Proof.
  unfold make_parent. destruct group as [|first rest]; [discriminate|].
  cbn [first_item fmap list_fmap py_min mbind result_bind].
  destruct (parent_name first (first :: rest)) as [nm|e]; [|discriminate].
  intros [= <-]. split; [|done].
  pose proof (foldl_min_spec (priority first) (priority <$> rest)) as [Hin Hle].
  split; cbn [id priority passes in_progress deferred blocked_by_intervention_id].
  - by exists first.
  - change (priority first :: (priority <$> rest)) with (priority <$> first :: rest) in Hin.
    apply list_elem_of_fmap in Hin as (f & Hf & Hin). by exists f.
  - intros f Hf.
    change (priority first :: (priority <$> rest)) with (priority <$> first :: rest) in Hle.
    rewrite Forall_fmap, Forall_forall in Hle. by apply Hle.
  - change (passes first :: (passes <$> rest)) with (passes <$> first :: rest).
    rewrite py_all_spec. split.
    + intros Hall f Hf. apply Hall, list_elem_of_fmap. by exists f.
    + intros Hall b (f & -> & Hf)%list_elem_of_fmap. by apply Hall.
  - change (in_progress first :: (in_progress <$> rest)) with (in_progress <$> first :: rest).
    rewrite py_any_spec, list_elem_of_fmap. split; intros (f & ? & ?); by exists f.
  - change (deferred first :: (deferred <$> rest)) with (deferred <$> first :: rest).
    rewrite py_any_spec, list_elem_of_fmap. split; intros (f & ? & ?); by exists f.
  - done.
Qed.

Lemma make_parent_cases (cat : str) (first : Feature) (rest : list Feature) :
  (rest ≠ [] ∧ blank (name first) = true
   ∧ make_parent cat (first :: rest) = index_error)
  ∨ ((rest = [] ∨ blank (name first) = false)
     ∧ is_Ok (make_parent cat (first :: rest))).
Proof.
  unfold make_parent, parent_name.
  cbn [first_item fmap list_fmap py_min mbind result_bind length].
  destruct rest as [|second rest].
  - right. split; [by left|]. case_decide; [simpl in *; lia|]. by eexists.
  - case_decide; [|simpl in *; lia].
    destruct (first_item_split (name first)) as [[Hb ->]|[Hb [w ->]]].
    + left. by repeat split.
    + right. split; [by right|]. by eexists.
Qed.

Lemma make_parent_is_Ok (cat : str) (group : list Feature) :
  group ≠ [] →
  is_Ok (make_parent cat group)
  ↔ (1 < length group → ∀ first, head group = Some first → blank (name first) = false).
Proof.
  destruct group as [|first rest]; [done|]. intros _.
  destruct (make_parent_cases cat first rest) as [(Hr & Hb & He)|[Hc Hok]].
  - split.
    + intros [p Hp]. rewrite He in Hp. discriminate.
    + intros Hn. rewrite (Hn ltac:(destruct rest; simpl; [done|lia]) first eq_refl) in Hb.
      discriminate.
  - split; [|done]. intros _ Hlen f [= <-].
    destruct Hc as [->|Hb]; [simpl in Hlen; lia | done].
Qed.

Lemma make_parent_Raise (cat : str) (group : list Feature) (e : exn) :
  make_parent cat group = Raise e → e = Exn IndexError (lit "list index out of range").
Proof.
  destruct group as [|first rest]; [by intros [= <-]|].
  destruct (make_parent_cases cat first rest) as [(_ & _ & ->)|[_ [p ->]]].
  - by intros [= <-].
  - discriminate.
Qed.

Lemma chunked_is_Ok (features : list Feature) (cat : str) :
  is_Ok (mapM (make_parent cat) (chunks features)) ↔ heads_named (chunks features).
Proof.
  rewrite mapM_is_Ok. unfold heads_named.
  pose proof (chunks_nonempty features) as Hne.
  rewrite !Forall_forall in *. split; intros Hall group Hin.
  - apply (make_parent_is_Ok cat); [by apply Hne | by apply Hall].
  - apply make_parent_is_Ok; [by apply Hne | by apply Hall].
Qed.

(** ** The steps of a parent *)

Lemma length_merge_steps (group : list Feature) :
  length (merge_steps group) = length group + total_steps group.
Proof.
  unfold merge_steps, total_steps. induction group as [|f group IH]; [done|].
  rewrite bind_cons, length_app. simpl. rewrite length_fmap, IH. lia.
Qed.

Lemma elem_of_merge_steps (group : list Feature) (f : Feature) (s : str) :
  f ∈ group → s ∈ steps f → indented s ∈ merge_steps group.
Proof.
  intros Hf Hs. unfold merge_steps. apply list_elem_of_bind.
  exists f. split; [|done]. right. apply list_elem_of_fmap. by exists s.
Qed.

Lemma substring_refl (s : str) : substring s s.
Proof. exists [], []. by rewrite app_nil_r. Qed.

Lemma substring_indented (s : str) : substring s (indented s).
Proof. exists (lit "    - "), []. unfold indented. by rewrite app_nil_r. Qed.

Lemma total_steps_join (groups : list (list Feature)) :
  total_steps (mjoin groups) = sum_list_with total_steps groups.
Proof.
  unfold total_steps. induction groups as [|g groups IH]; [done|].
  simpl. by rewrite sum_list_with_app, IH.
Qed.

Lemma total_steps_parents (cat : str) (groups : list (list Feature)) (out : list Feature) :
  Forall2 (λ group parent, make_parent cat group = Ok parent) groups out →
  total_steps out = length (mjoin groups) + total_steps (mjoin groups).
Proof.
  induction 1 as [|group parent groups out Hp _ IH]; [done|].
  apply make_parent_Ok in Hp as (_ & _ & Hsteps).
  unfold total_steps in *. simpl.
  rewrite Hsteps, length_merge_steps, IH, length_app, sum_list_with_app.
  unfold total_steps. lia.
Qed.

(** ** The claims on one category *)

Lemma consolidate_category_reduces (features : list Feature) (cat : str) (out : list Feature) :
  3 < length features → cat ≠ AUDIO_SYSTEM →
  consolidate_category features cat = Ok out →
  length out = ceil_div (length features) (chunk_factor (length features))
  ∧ length out < length features.
Proof.
  intros Hn Hc Hout. rewrite consolidate_category_chunked in Hout by done.
  apply mapM_Ok, Forall2_length in Hout.
  rewrite <- Hout, length_chunks. split; [done | by apply ceil_div_lt].
Qed.

Lemma wallet_not_audio : WALLET ≠ AUDIO_SYSTEM.
Proof. discriminate. Qed.

(** C10. On a category that is chunked (more than 3 records, rules with a
    consolidation factor), [consolidate_category] returns exactly when
    every chunk of more than one record starts with a record whose name
    has a non-space character; when such a name is empty or white space,
    [split()] gives no word, [[0]] fails on the empty list and the call
    raises IndexError instead of returning a list. *)
Theorem consolidate_category_total_iff (features : list Feature) (cat : str) :
  3 < length features → cat ≠ AUDIO_SYSTEM →
  (is_Ok (consolidate_category features cat) ↔ heads_named (chunks features))
  ∧ (∀ group first,
       group ∈ chunks features → 1 < length group → head group = Some first →
       blank (name first) = true →
       split (name first) = []
       ∧ first_item (split (name first)) = index_error
       ∧ consolidate_category features cat = index_error).
Proof.
  intros Hn Hc. rewrite consolidate_category_chunked by done.
  split; [apply chunked_is_Ok|].
  intros group first Hin Hlen Hhead Hblank.
  assert (split (name first) = []) as Hsplit by by apply split_nil.
  split; [done|]. split; [by rewrite Hsplit|].
  destruct (mapM (make_parent cat) (chunks features)) as [out|e] eqn:Hm.
  - assert (heads_named (chunks features)) as Hnamed
      by (apply (chunked_is_Ok features cat); rewrite Hm; by eexists).
    unfold heads_named in Hnamed. rewrite Forall_forall in Hnamed.
    rewrite (Hnamed group Hin Hlen first Hhead) in Hblank. discriminate.
  - apply mapM_Raise_inv in Hm as (g & _ & Hg).
    apply make_parent_Raise in Hg. by subst.
Qed.

Lemma consolidate_category_total_iff_witness :
  3 < length unnamed_features ∧ WALLET ≠ AUDIO_SYSTEM
  ∧ consolidate_category unnamed_features WALLET = index_error
  ∧ is_Ok (consolidate_category wallet_features WALLET).
Proof.
  split; [vm_compute; lia|]. split; [apply wallet_not_audio|]. split.
  - refine (proj2 (proj2 (proj2 (consolidate_category_total_iff unnamed_features WALLET
      _ wallet_not_audio) (take 3 unnamed_features) (seeded 1 "Wallet" "  " ["Add the button"])
      _ _ _ _))).
    + vm_compute; lia.
    + vm_compute. by left.
    + vm_compute; lia.
    + reflexivity.
    + reflexivity.
  - by vm_compute; eexists.
Defined.

(** C5. Every parent that [consolidate_category] builds takes its id from
    the first record of its chunk, the least priority of the chunk, the
    conjunction of the children's [passes], the disjunction of their
    [in_progress] and of their [deferred], and no
    [blocked_by_intervention_id]. *)
Theorem merged_parent_fields (features : list Feature) (cat : str) (out : list Feature) :
  3 < length features → cat ≠ AUDIO_SYSTEM →
  consolidate_category features cat = Ok out →
  Forall2 merged_from (chunks features) out.
Proof.
  intros Hn Hc Hout. rewrite consolidate_category_chunked in Hout by done.
  apply mapM_Ok in Hout. eapply Forall2_impl; [exact Hout|].
  intros group parent Hp. by apply make_parent_Ok in Hp as [Hm _].
Qed.

Lemma merged_parent_fields_witness :
  ∃ parent last,
    consolidate_category status_features WALLET = Ok [parent; last]
    ∧ merged_from (take 3 status_features) parent
    ∧ id parent = 10%Z ∧ priority parent = 5%Z
    ∧ passes parent = false ∧ in_progress parent = true ∧ deferred parent = false
    ∧ blocked_by_intervention_id parent = None.
Proof.
  destruct (consolidate_category status_features WALLET) as [out|e] eqn:Hout;
    [|vm_compute in Hout; discriminate].
  pose proof (merged_parent_fields status_features WALLET out
                ltac:(vm_compute; lia) wallet_not_audio Hout) as Hall.
  vm_compute in Hout. injection Hout as <-.
  eexists _, _. split; [reflexivity|].
  split; [|by repeat split].
  change (chunks status_features) with
    [take 3 status_features; drop 3 status_features] in Hall.
  inversion Hall as [|? ? ? ? Hfirst _]; subst. exact Hfirst.
Defined.

(** C4. A category without a partition of its own and with more than 3
    records is cut into consecutive chunks of 4 records when it has more
    than 50 records and of 3 records otherwise, one output record per
    chunk: 13 records for 51 and 17 for 50. *)
Theorem chunk_factor_selection (features : list Feature) (cat : str) :
  3 < length features → cat ≠ AUDIO_SYSTEM →
  let factor := if decide (50 < length features) then 4 else 3 in
  let count := ceil_div (length features) factor in
  consolidate_category features cat
  = mapM (make_parent cat)
      ((λ k, take factor (drop (k * factor) features)) <$> seq 0 count)
  ∧ (length features = 51 → count = 13)
  ∧ (length features = 50 → count = 17)
  ∧ (heads_named (chunks features) →
     ∃ out, consolidate_category features cat = Ok out ∧ length out = count).
Proof.
  intros Hn Hc factor count.
  rewrite consolidate_category_chunked by done.
  split; [by rewrite chunks_unfold|].
  split; [|split].
  - intros Hlen. subst count factor. by rewrite Hlen.
  - intros Hlen. subst count factor. by rewrite Hlen.
  - intros [out Hout]%(chunked_is_Ok features cat). exists out. split; [done|].
    apply mapM_Ok, Forall2_length in Hout. rewrite <- Hout. apply length_chunks.
Qed.

Lemma chunk_factor_selection_witness :
  (∃ out, consolidate_category (replicate 51 (seeded 1 "Wallet" "Connect wallet" [])) WALLET
          = Ok out ∧ length out = 13)
  ∧ (∃ out, consolidate_category (replicate 50 (seeded 1 "Wallet" "Connect wallet" [])) WALLET
            = Ok out ∧ length out = 17).
Proof.
  split.
  - apply (chunk_factor_selection (replicate 51 (seeded 1 "Wallet" "Connect wallet" [])) WALLET
             ltac:(vm_compute; lia) wallet_not_audio).
    unfold heads_named. apply Forall_forall. intros group Hin _ first Hhead.
    apply head_Some_elem_of in Hhead.
    assert (first ∈ mjoin (chunks (replicate 51 (seeded 1 "Wallet" "Connect wallet" [])))) as Hf
      by (apply list_elem_of_join; eauto).
    rewrite join_chunks in Hf. apply elem_of_replicate in Hf as [-> _]. reflexivity.
  - apply (chunk_factor_selection (replicate 50 (seeded 1 "Wallet" "Connect wallet" [])) WALLET
             ltac:(vm_compute; lia) wallet_not_audio).
    unfold heads_named. apply Forall_forall. intros group Hin _ first Hhead.
    apply head_Some_elem_of in Hhead.
    assert (first ∈ mjoin (chunks (replicate 50 (seeded 1 "Wallet" "Connect wallet" [])))) as Hf
      by (apply list_elem_of_join; eauto).
    rewrite join_chunks in Hf. apply elem_of_replicate in Hf as [-> _]. reflexivity.
Defined.

(** C2, as stated, fails: a category of four records whose first name is
    white space is not returned shorter, it is not returned at all. *)
Lemma blank_name_category_raises :
  3 < length unnamed_features
  ∧ consolidate_category unnamed_features WALLET = index_error
  ∧ ∀ out, consolidate_category unnamed_features WALLET ≠ Ok out.
Proof.
  split; [vm_compute; lia|].
  assert (consolidate_category unnamed_features WALLET = index_error) as Hraise
    by reflexivity.
  split; [exact Hraise|]. intros out. rewrite Hraise. discriminate.
Qed.

(** C2, as amended. A category of at most 3 records is returned as it is.
    A category of more than 3 records whose rules carry a consolidation
    factor is returned as ceil(n / factor) records, fewer than it had,
    provided every chunk of more than one record starts with a record
    whose name has a word in it; and whenever such a category is returned
    at all, it is returned shorter. *)
Theorem consolidate_category_reduction (features : list Feature) (cat : str) :
  (length features ≤ 3 → consolidate_category features cat = Ok features)
  ∧ (3 < length features → cat ≠ AUDIO_SYSTEM → heads_named (chunks features) →
     ∃ out, consolidate_category features cat = Ok out
            ∧ length out = ceil_div (length features) (chunk_factor (length features))
            ∧ length out < length features)
  ∧ (3 < length features → cat ≠ AUDIO_SYSTEM →
     ∀ out, consolidate_category features cat = Ok out → length out < length features).
Proof.
  split; [apply consolidate_category_small|]. split.
  - intros Hn Hc Hnamed.
    destruct (proj2 (chunked_is_Ok features cat) Hnamed) as [out Hout].
    rewrite <- consolidate_category_chunked in Hout by done.
    exists out. split; [done|]. by eapply consolidate_category_reduces.
  - intros Hn Hc out Hout. by eapply consolidate_category_reduces.
Qed.

Lemma consolidate_category_reduction_witness :
  consolidate_category (take 3 wallet_features) WALLET = Ok (take 3 wallet_features)
  ∧ ∃ out, consolidate_category wallet_features WALLET = Ok out ∧ length out = 2.
Proof.
  destruct (consolidate_category_reduction (take 3 wallet_features) WALLET) as [Hsmall _].
  split; [apply Hsmall; vm_compute; lia|].
  destruct (consolidate_category_reduction wallet_features WALLET) as (_ & Hlarge & _).
  destruct Hlarge as (out & Hout & Hlen & _).
  - vm_compute; lia.
  - apply wallet_not_audio.
  - unfold heads_named. apply Forall_forall. intros group Hg _ first Hhead%head_Some_elem_of.
    assert (first ∈ wallet_features) as Hf
      by (rewrite <- (join_chunks wallet_features); apply list_elem_of_join; eauto).
    apply list_elem_of_In in Hf. simpl in Hf.
    decompose [or] Hf; subst; try reflexivity. done.
  - exists out. split; [done|]. rewrite Hlen. reflexivity.
Defined.

(** Four records of "Audio System" come back as they went in. *)
Example audio_category_unchanged :
  consolidate_category audio_features AUDIO_SYSTEM = Ok audio_features
  ∧ length audio_features = 4.
Proof. split; [apply consolidate_category_no_factor | reflexivity]. Qed.

(** C3, where it fails. The rules of "Audio System" carry a partition, and
    [consolidate_category] has no branch that reads it: whatever the
    records of the category are, they are returned as they are. *)
Theorem audio_partition_ignored (features : list Feature) :
  is_Some (groups (get_consolidation_rules AUDIO_SYSTEM (length features)))
  ∧ consolidation_factor (get_consolidation_rules AUDIO_SYSTEM (length features)) = None
  ∧ consolidate_category features AUDIO_SYSTEM = Ok features.
Proof.
  split; [by apply rules_groups|]. split.
  - rewrite rules_factor. by case_decide.
  - apply consolidate_category_no_factor.
Qed.

(** ** Grouping by category *)

Lemma dict_append_join (by_cat : list (str * list Feature)) (f : Feature) :
  mjoin (dict_append by_cat f).*2 ≡ₚ mjoin by_cat.*2 ++ [f].
Proof.
  induction by_cat as [|[c fs] rest IH]; simpl; [done|].
  case_decide; simpl.
  - by rewrite <- !(assoc_L (++)), (comm (++) [f]).
  - by rewrite IH, (assoc_L (++)).
Qed.

Lemma group_by_category_join (features : list Feature) :
  mjoin (group_by_category features).*2 ≡ₚ features.
Proof.
  unfold group_by_category.
  assert (∀ acc, mjoin (foldl dict_append acc features).*2 ≡ₚ mjoin acc.*2 ++ features)
    as Hgen; [|by rewrite Hgen].
  induction features as [|f features IH]; intros acc; simpl.
  - by rewrite app_nil_r.
  - by rewrite IH, dict_append_join, <- (assoc_L (++)).
Qed.

Lemma dict_append_nonempty (by_cat : list (str * list Feature)) (f : Feature) :
  Forall (λ item, item.2 ≠ []) by_cat →
  Forall (λ item, item.2 ≠ []) (dict_append by_cat f).
Proof.
  induction 1 as [|[c fs] rest Hfs Hrest IH]; simpl.
  - by repeat constructor.
  - case_decide; constructor; simpl in *; try done. by destruct fs.
Qed.

Lemma group_by_category_nonempty (features : list Feature) :
  Forall (λ item, item.2 ≠ []) (group_by_category features).
Proof.
  unfold group_by_category.
  assert (∀ acc, Forall (λ item : str * list Feature, item.2 ≠ []) acc →
                 Forall (λ item, item.2 ≠ []) (foldl dict_append acc features))
    as Hgen; [|by apply Hgen].
  induction features as [|f features IH]; intros acc Hacc; simpl; [done|].
  by apply IH, dict_append_nonempty.
Qed.

Lemma dict_append_keys (by_cat : list (str * list Feature)) (f : Feature) :
  (dict_append by_cat f).*1
  = if decide (category f ∈ by_cat.*1) then by_cat.*1 else by_cat.*1 ++ [category f].
Proof.
  induction by_cat as [|[c fs] rest IH]; cbn [dict_append].
  - destruct (decide (category f ∈ [].*1)) as [Hin|Hin]; [by apply elem_of_nil in Hin | done].
  - destruct (decide (c = category f)) as [->|Hne]; rewrite !fmap_cons; cbn [fst].
    + rewrite decide_True; [done | by left].
    + rewrite IH. destruct (decide (category f ∈ rest.*1)) as [Hin|Hin].
      * rewrite decide_True; [done | by right].
      * rewrite decide_False; [done|]. by intros [?|?]%elem_of_cons.
Qed.

(** The keys of [by_category] are distinct, as those of a dict are. *)
Lemma group_by_category_keys (features : list Feature) :
  NoDup (group_by_category features).*1.
Proof.
  unfold group_by_category.
  assert (∀ acc : list (str * list Feature),
            NoDup acc.*1 → NoDup (foldl dict_append acc features).*1)
    as Hgen; [|apply Hgen; constructor].
  induction features as [|f features IH]; intros acc Hacc; simpl; [done|].
  apply IH. rewrite dict_append_keys. case_decide; [done|].
  apply NoDup_app. split; [done|]. split; [|apply NoDup_singleton].
  by intros x Hx ->%list_elem_of_singleton.
Qed.

(** ** One category: steps kept, steps counted *)

Lemma Forall2_elem_of_left {A B} (R : A → B → Prop) (l : list A) (k : list B) (x : A) :
  Forall2 R l k → x ∈ l → ∃ y, y ∈ k ∧ R x y.
Proof.
  induction 1 as [|a b l k Hab _ IH]; [by intros ?%elem_of_nil|].
  intros [->|Hin]%elem_of_cons.
  - exists b. split; [by left | done].
  - destruct (IH Hin) as (y & Hy & Hxy). exists y. split; [by right | done].
Qed.

Lemma consolidate_category_keeps_steps
    (features : list Feature) (cat : str) (out : list Feature) (f : Feature) (s : str) :
  consolidate_category features cat = Ok out →
  f ∈ features → s ∈ steps f →
  ∃ p, p ∈ out ∧ locatable s p.
Proof.
  intros Hout Hf Hs.
  assert (out = features → ∃ p, p ∈ out ∧ locatable s p) as Hsame.
  { intros ->. exists f. split; [done|]. exists s. split; [done | apply substring_refl]. }
  destruct (decide (length features ≤ 3)) as [Hn|Hn].
  { rewrite consolidate_category_small in Hout by done. apply Hsame. congruence. }
  destruct (decide (cat = AUDIO_SYSTEM)) as [->|Hc].
  { rewrite consolidate_category_no_factor in Hout. apply Hsame. congruence. }
  rewrite consolidate_category_chunked in Hout by (done || lia).
  apply mapM_Ok in Hout.
  rewrite <- (join_chunks features) in Hf.
  apply list_elem_of_join in Hf as (group & Hfg & Hg).
  destruct (Forall2_elem_of_left _ _ _ _ Hout Hg) as (p & Hp & Hmk).
  apply make_parent_Ok in Hmk as (_ & _ & Hsteps).
  exists p. split; [done|]. exists (indented s). split.
  - rewrite Hsteps. by eapply elem_of_merge_steps.
  - apply substring_indented.
Qed.

Lemma consolidate_category_counts_steps
    (features : list Feature) (cat : str) (out : list Feature) :
  consolidate_category features cat = Ok out →
  total_steps out = total_steps features
  ∨ total_steps out = length features + total_steps features.
Proof.
  intros Hout.
  destruct (decide (length features ≤ 3)) as [Hn|Hn].
  { rewrite consolidate_category_small in Hout by done. left. congruence. }
  destruct (decide (cat = AUDIO_SYSTEM)) as [->|Hc].
  { rewrite consolidate_category_no_factor in Hout. left. congruence. }
  rewrite consolidate_category_chunked in Hout by (done || lia).
  apply mapM_Ok, total_steps_parents in Hout.
  rewrite join_chunks in Hout. by right.
Qed.

Lemma consolidate_category_named (features : list Feature) (cat : str) :
  all_named features → is_Ok (consolidate_category features cat).
Proof.
  intros Hall.
  destruct (decide (length features ≤ 3)) as [Hn|Hn].
  { rewrite consolidate_category_small by done. by eexists. }
  destruct (decide (cat = AUDIO_SYSTEM)) as [->|Hc].
  { rewrite consolidate_category_no_factor. by eexists. }
  rewrite consolidate_category_chunked by (done || lia).
  apply chunked_is_Ok. unfold heads_named. apply Forall_forall.
  intros group Hg _ first Hhead%head_Some_elem_of.
  unfold all_named in Hall. rewrite Forall_forall in Hall. apply Hall.
  rewrite <- (join_chunks features). apply list_elem_of_join. eauto.
Qed.

(** ** The whole table *)

Section whole_table.
Context `{Runtime}.

Lemma consolidate_loop_Ok (items : list (str * list Feature))
    (acc : list Feature * list (str * CategoryStats))
    (out : list Feature) (st : list (str * CategoryStats)) :
  consolidate_loop items acc = Ok (out, st) →
  ∃ outs, Forall2 (λ item o, consolidate_category item.2 item.1 = Ok o) items outs
          ∧ out = acc.1 ++ mjoin outs.
Proof.
  revert acc. induction items as [|[cat fs] items IH]; intros acc; simpl.
  - intros [= ->]. exists []. split; [constructor | by rewrite app_nil_r].
  - destruct (consolidate_category fs cat) as [o|e] eqn:Ho; [|discriminate].
    cbn [mbind result_bind].
    destruct (reduction_percent (length fs) (length o)) as [red|e]; [|discriminate].
    cbn [mbind result_bind]. intros Hloop.
    apply IH in Hloop as (outs & Houts & ->). exists (o :: outs). split.
    + by constructor.
    + simpl. by rewrite (assoc_L (++)).
Qed.

Lemma consolidate_loop_is_Ok (items : list (str * list Feature))
    (acc : list Feature * list (str * CategoryStats)) :
  Forall (λ item, item.2 ≠ [] ∧ is_Ok (consolidate_category item.2 item.1)) items →
  is_Ok (consolidate_loop items acc).
Proof.
  intros Hitems. revert acc.
  induction Hitems as [|[cat fs] items [Hne [o Ho]] _ IH]; intros acc; simpl.
  - by eexists.
  - simpl in Ho. rewrite Ho. cbn [mbind result_bind].
    unfold reduction_percent. rewrite decide_False by by destruct fs.
    cbn [mbind result_bind]. apply IH.
Qed.

Lemma consolidate_features_Ok (features out : list Feature) (stats : Stats) :
  consolidate_features features = Ok (out, stats) →
  ∃ items outs,
    mjoin items.*2 ≡ₚ features
    ∧ Forall2 (λ item o, consolidate_category item.2 item.1 = Ok o) items outs
    ∧ out = mjoin outs.
Proof.
  unfold consolidate_features.
  destruct (consolidate_loop _ _) as [[out' st]|e] eqn:Hloop; [|discriminate].
  cbn [mbind result_bind]. intros [= <- _].
  apply consolidate_loop_Ok in Hloop as (outs & Houts & ->).
  eexists _, outs. split; [|done].
  rewrite merge_sort_Permutation. apply group_by_category_join.
Qed.

Lemma consolidate_features_named (features : list Feature) :
  all_named features → is_Ok (consolidate_features features).
Proof.
  intros Hall. unfold consolidate_features.
  destruct (consolidate_loop_is_Ok (merge_sort item_le (group_by_category features)) ([], []))
    as [[out st] Hloop].
  - rewrite merge_sort_Permutation.
    pose proof (group_by_category_nonempty features) as Hne.
    pose proof (group_by_category_join features) as Hjoin.
    rewrite Forall_forall in *. intros item Hitem.
    split; [by apply Hne|]. apply consolidate_category_named.
    unfold all_named in *. rewrite Forall_forall in *. intros f Hf. apply Hall.
    rewrite <- Hjoin. apply list_elem_of_join. exists item.2. split; [done|].
    apply list_elem_of_fmap. by exists item.
  - rewrite Hloop. by eexists.
Qed.

(** C1, as amended. Whenever consolidation returns, of one category or of
    the whole table, every step of every input record is a substring of a
    line of the steps of at least one output record; and it returns when
    every record has a name with a word in it. *)
Theorem steps_preserved (features : list Feature) :
  (∀ cat out f s,
     consolidate_category features cat = Ok out →
     f ∈ features → s ∈ steps f → ∃ p, p ∈ out ∧ locatable s p)
  ∧ (∀ out stats f s,
       consolidate_features features = Ok (out, stats) →
       f ∈ features → s ∈ steps f → ∃ p, p ∈ out ∧ locatable s p)
  ∧ (∀ cat, all_named features → is_Ok (consolidate_category features cat))
  ∧ (all_named features → is_Ok (consolidate_features features)).
Proof.
  split; [|split; [|split]].
  - intros cat out f s. apply consolidate_category_keeps_steps.
  - intros out stats f s (items & outs & Hjoin & Houts & ->)%consolidate_features_Ok Hf Hs.
    rewrite <- Hjoin in Hf.
    apply list_elem_of_join in Hf as (fs & Hf & (item & -> & Hitem)%list_elem_of_fmap).
    destruct (Forall2_elem_of_left _ _ _ _ Houts Hitem) as (o & Ho & Hcat).
    destruct (consolidate_category_keeps_steps _ _ _ _ _ Hcat Hf Hs) as (p & Hp & Hloc).
    exists p. split; [|done]. apply list_elem_of_join. eauto.
  - intros cat. apply consolidate_category_named.
  - apply consolidate_features_named.
Qed.

Lemma total_steps_outputs (items : list (str * list Feature)) (outs : list (list Feature)) :
  Forall2 (λ item o, consolidate_category item.2 item.1 = Ok o) items outs →
  total_steps (mjoin items.*2) ≤ total_steps (mjoin outs).
Proof.
  induction 1 as [|[cat fs] o items outs Ho _ IH]; [done|].
  rewrite fmap_cons. simpl in *. unfold total_steps in *.
  rewrite !sum_list_with_app.
  apply consolidate_category_counts_steps in Ho. unfold total_steps in Ho. lia.
Qed.

(** C6. Whenever consolidation returns, of one category or of the whole
    table, the steps of the output are at least as many as those of the
    input; and it returns when every record has a name with a word in it. *)
Theorem step_count_not_decreased (features : list Feature) :
  (∀ cat out,
     consolidate_category features cat = Ok out →
     total_steps features ≤ total_steps out)
  ∧ (∀ out stats,
       consolidate_features features = Ok (out, stats) →
       total_steps features ≤ total_steps out)
  ∧ (∀ cat, all_named features → is_Ok (consolidate_category features cat))
  ∧ (all_named features → is_Ok (consolidate_features features)).
Proof.
  split; [|split; [|split]].
  - intros cat out Hout%consolidate_category_counts_steps. lia.
  - intros out stats (items & outs & Hjoin & Houts & ->)%consolidate_features_Ok.
    apply total_steps_outputs in Houts.
    unfold total_steps in *. by rewrite <- Hjoin.
  - intros cat. apply consolidate_category_named.
  - apply consolidate_features_named.
Qed.

End whole_table.

(** ** C1 and C6 on the worked inputs *)

(** C1, as stated, fails. The first and the last record of
    [wallet_features] share the step "Run the tests"; they fall into two
    chunks, and the step is found in the steps of both parents. *)
Lemma step_located_twice :
  ∃ out f,
    consolidate_category wallet_features WALLET = Ok out
    ∧ f ∈ wallet_features ∧ lit "Run the tests" ∈ steps f
    ∧ ¬ located_in_exactly_one (lit "Run the tests") out.
Proof.
  destruct (consolidate_category wallet_features WALLET) as [out|e] eqn:Hout;
    [|vm_compute in Hout; discriminate].
  exists out, (seeded 1 "Wallet" "Connect wallet button" ["Add the button"; "Run the tests"]).
  split; [done|]. split; [by left|]. split; [by right; left|].
  vm_compute in Hout. injection Hout as <-.
  intros (i & _ & Honly).
  assert (∀ p, indented (lit "Run the tests") ∈ steps p → locatable (lit "Run the tests") p)
    as Hloc.
  { intros p Hp. eexists. split; [exact Hp | apply substring_indented]. }
  assert (0 = i) as H0.
  { eapply Honly; [reflexivity|]. apply Hloc, list_elem_of_In. vm_compute. tauto. }
  assert (1 = i) as H1.
  { eapply Honly; [reflexivity|]. apply Hloc, list_elem_of_In. vm_compute. tauto. }
  congruence.
Qed.

Lemma steps_preserved_witness :
  ∃ out stats p,
    @consolidate_features example_runtime wallet_features = Ok (out, stats)
    ∧ p ∈ out ∧ locatable (lit "Run the tests") p.
Proof.
  destruct (@consolidate_features example_runtime wallet_features)
    as [[out stats]|e] eqn:Hout; [|vm_compute in Hout; discriminate].
  destruct (proj1 (proj2 (@steps_preserved example_runtime wallet_features)) out stats
              (seeded 4 "Wallet" "Switch network" ["Run the tests"]) (lit "Run the tests") Hout)
    as (p & Hp & Hloc).
  - apply list_elem_of_In. vm_compute. tauto.
  - by left.
  - by exists out, stats, p.
Defined.

Lemma step_count_not_decreased_witness :
  ∃ out stats,
    @consolidate_features example_runtime wallet_features = Ok (out, stats)
    ∧ total_steps wallet_features ≤ total_steps out.
Proof.
  destruct (@consolidate_features example_runtime wallet_features)
    as [[out stats]|e] eqn:Hout; [|vm_compute in Hout; discriminate].
  exists out, stats. split; [done|].
  exact (proj1 (proj2 (@step_count_not_decreased example_runtime wallet_features))
           out stats Hout).
Defined.

(** ** [validate] *)

(** C7. [validate] leaves the connection alone. It raises exactly when the
    consolidated records are not fewer than the original ones or their
    number is outside 250..600, and what it raises is an AssertionError.
    Fewer steps than before, with both counts in order, is not a failure:
    the warning is printed and the call returns. *)
Theorem validate_raises_iff (original consolidated : list Feature) (c : conn) :
  ∃ out r,
    validate original consolidated c = (c, out, r)
    ∧ ((∃ e, r = Raise e)
       ↔ ¬ length consolidated < length original
         ∨ ¬ (250 ≤ length consolidated ∧ length consolidated ≤ 600))
    ∧ (∀ e, r = Raise e → ∃ msg, e = Exn AssertionError msg)
    ∧ (length consolidated < length original →
       250 ≤ length consolidated ∧ length consolidated ≤ 600 →
       total_steps consolidated < total_steps original →
       r = Ok () ∧ WARNING_LINE ∈ out).
Proof.
  unfold validate.
  cbv [mbind M_bind print assert raise mret M_ret].
  destruct (bool_decide (length consolidated < length original)) eqn:Hless.
  - apply bool_decide_eq_true in Hless.
    destruct (bool_decide (250 ≤ length consolidated)) eqn:Hlo;
      [destruct (bool_decide (length consolidated ≤ 600)) eqn:Hhi|]; cbn [andb].
    + apply bool_decide_eq_true in Hlo, Hhi.
      destruct (decide (total_steps consolidated < total_steps original)) as [Hsteps|Hsteps];
        eexists _, _; (split; [reflexivity|]);
        (split; [split; [by intros [e ?] | lia]|]);
        (split; [by intros e ?|]); intros _ _ Hdecr; [|lia].
      split; [done|]. unfold WARNING_LINE. cbn [app]. do 5 right. by left.
    + apply bool_decide_eq_false in Hhi.
      eexists _, _. split; [reflexivity|].
      split; [split; [intros _; right; lia | by eexists]|].
      split; [intros e [= <-]; by eexists | lia].
    + apply bool_decide_eq_false in Hlo.
      eexists _, _. split; [reflexivity|].
      split; [split; [intros _; right; lia | by eexists]|].
      split; [intros e [= <-]; by eexists | lia].
  - apply bool_decide_eq_false in Hless.
    eexists _, _. split; [reflexivity|].
    split; [split; [intros _; by left | by eexists]|].
    split; [intros e [= <-]; by eexists | lia].
Qed.

Lemma validate_raises_iff_witness :
  ∃ out,
    validate (replicate 400 with_step) (replicate 300 without_step) empty_store
    = (empty_store, out, Ok ())
    ∧ WARNING_LINE ∈ out.
Proof.
  destruct (validate_raises_iff (replicate 400 with_step) (replicate 300 without_step)
              empty_store) as (out & r & Hv & _ & _ & Hwarn).
  destruct Hwarn as [-> Hin]; [vm_compute; lia .. |].
  by exists out.
Defined.

(** ** Effects that keep a relation between the connection before and after *)

Section keeps.
Context (R : relation conn) `{!PreOrder R}.

Lemma keeps_ret {A} (a : A) : keeps R (mret a : M A).
Proof. intros c. reflexivity. Qed.

Lemma keeps_print (line : str) : keeps R (print line).
Proof. intros c. reflexivity. Qed.

Lemma keeps_raise {A} (e : exn) : keeps R (raise e : M A).
Proof. intros c. reflexivity. Qed.

Lemma keeps_lift {A} (r : result A) : keeps R (lift r).
Proof. intros c. reflexivity. Qed.

Lemma keeps_assert (cond : bool) (msg : str) : keeps R (assert cond msg).
Proof. intros c. unfold assert. destruct cond; reflexivity. Qed.

Lemma keeps_bind {A B} (m : M A) (f : A → M B) :
  keeps R m → (∀ a, keeps R (f a)) → keeps R (m ≫= f).
Proof.
  intros Hm Hf c. specialize (Hm c).
  unfold state_after, mbind, M_bind in *.
  destruct (m c) as [[c' out] [a|e]]; simpl in *; [|done].
  specialize (Hf a c'). unfold state_after in Hf.
  destruct (f a c') as [[c'' out'] r]; simpl in *. by etrans.
Qed.

Lemma keeps_handling {A} (e : exn) (m : M A) : keeps R m → keeps R (handling e m).
Proof.
  intros Hm c. specialize (Hm c). unfold state_after, handling in *.
  by destruct (m c) as [[c' out] [a|e']].
Qed.

Lemma keeps_try_except {A} (body : M A) (handler : exn → M A) :
  keeps R body → (∀ e, keeps R (handler e)) → keeps R (try_except body handler).
Proof.
  intros Hm Hh c. specialize (Hm c).
  unfold state_after, try_except in *.
  destruct (body c) as [[c' out] [a|e]]; simpl in *; [done|].
  destruct (is_exception e); [|done].
  specialize (Hh e c'). unfold state_after in Hh.
  destruct (handler e c') as [[c'' out'] r]; simpl in *. by etrans.
Qed.

Lemma keeps_print_category_lines (entries : list (str * CategoryStats)) :
  keeps R (print_category_lines entries).
Proof.
  induction entries as [|[cat st] entries IH];
    cbn [print_category_lines print_category_line]; [apply keeps_ret|].
  apply keeps_bind; [apply keeps_print | intros []; exact IH].
Qed.

Lemma keeps_validate (original consolidated : list Feature) :
  keeps R (validate original consolidated).
Proof.
  unfold validate.
  repeat (apply keeps_bind; [first [apply keeps_print | apply keeps_assert | idtac]|intros []]).
  - case_decide; apply keeps_print.
  - apply keeps_print.
Qed.

End keeps.

#[global] Instance same_committed_preorder : PreOrder same_committed.
Proof.
  split.
  - by intros c.
  - intros c1 c2 c3 H12 H23. unfold same_committed in *. congruence.
Qed.

#[global] Instance untouched_preorder : PreOrder untouched.
Proof.
  split.
  - by intros c _ _.
  - intros c1 c2 c3 H12 H23 Hw Hf. pose proof (H12 Hw Hf) as ->. by apply H23.
Qed.

Lemma set_working_same (c : conn) : working c = None → set_working c None = c.
Proof. destruct c. simpl. by intros ->. Qed.

Lemma connect_untouched : keeps untouched connect.
Proof. intros c Hw _. by apply set_working_same. Qed.

Lemma close_untouched : keeps untouched close.
Proof. intros c Hw _. by apply set_working_same. Qed.

Lemma connect_same_committed : keeps same_committed connect.
Proof. by intros c. Qed.

Lemma close_same_committed : keeps same_committed close.
Proof. by intros c. Qed.

Lemma select_same_committed (table : string) :
  keeps same_committed (execute (SELECT_ORDER_BY_PRIORITY table)).
Proof.
  intros c. unfold state_after, execute, same_committed.
  destruct (faults c) as [|[|e|e] rest]; simpl;
    try destruct (view _ !! table); done.
Qed.

Lemma select_untouched (table : string) :
  keeps untouched (execute (SELECT_ORDER_BY_PRIORITY table)).
Proof.
  intros c Hw Hf. unfold state_after, execute. rewrite Hf. simpl.
  by destruct (view c !! table).
Qed.

(** ** The preview *)

Section preview.
Context `{Runtime}.
Context (R : relation conn) `{!PreOrder R}.
Hypothesis select_keeps : keeps R (execute (SELECT_ORDER_BY_PRIORITY "features")).
Hypothesis connect_keeps : keeps R connect.
Hypothesis close_keeps : keeps R close.

Lemma keeps_get_all_features : keeps R get_all_features.
Proof.
  unfold get_all_features. apply keeps_bind; [done | assumption |].
  intros rows. by apply keeps_lift.
Qed.

Lemma keeps_consolidate_all (flag : bool) : keeps R (consolidate_all flag).
Proof.
  unfold consolidate_all. apply keeps_bind; [done | apply keeps_get_all_features |].
  intros features. by apply keeps_lift.
Qed.

Lemma keeps_preview (args : Args) :
  dry_run args = true → execute_flag args = false → keeps R (main args).
Proof.
  intros Hdry Hexec. unfold main. rewrite Hdry, Hexec. cbn [negb andb].
  apply keeps_bind; [done | by apply keeps_ret | intros []].
  apply keeps_bind; [done | assumption | intros []].
  do 4 (apply keeps_bind; [done | by apply keeps_print | intros []]).
  apply keeps_bind; [done | apply keeps_get_all_features | intros original].
  apply keeps_bind; [done | apply keeps_consolidate_all | intros [consolidated stats]].
  do 3 (apply keeps_bind; [done | by apply keeps_print | intros []]).
  apply keeps_bind; [done | by apply keeps_lift | intros overall].
  do 2 (apply keeps_bind; [done | by apply keeps_print | intros []]).
  apply keeps_bind; [done | by apply keeps_print_category_lines | intros []].
  apply keeps_bind; [done | by apply keeps_validate | intros []].
  apply keeps_bind; [done | by apply keeps_print | intros []].
  assumption.
Qed.

End preview.

(** C9. The preview changes nothing that a reader of the database can see,
    whatever goes wrong on the way. On a fresh connection with no fault to
    come it leaves the connection exactly as it found it, so a second
    preview is the first one again: the same statistics from
    [consolidate_all], the same printed lines, the same verdict. *)
Theorem preview_writes_nothing `{Runtime} (args : Args) (c : conn) :
  dry_run args = true → execute_flag args = false →
  committed (state_after (main args) c) = committed c
  ∧ committed (state_after (consolidate_all true) c) = committed c
  ∧ (working c = None → faults c = [] →
     state_after (main args) c = c
     ∧ main args (state_after (main args) c) = main args c
     ∧ consolidate_all true (state_after (main args) c) = consolidate_all true c).
Proof.
  intros Hdry Hexec.
  pose proof (keeps_preview same_committed (select_same_committed "features")
                connect_same_committed close_same_committed args Hdry Hexec c) as Hsame.
  pose proof (keeps_preview untouched (select_untouched "features")
                connect_untouched close_untouched args Hdry Hexec c) as Hleft.
  split; [exact Hsame|]. split.
  - apply (keeps_consolidate_all same_committed (select_same_committed "features")).
  - intros Hw Hf. by rewrite (Hleft Hw Hf).
Qed.

(** ** The migration *)

Lemma set_view_in_transaction (c : conn) (t : tables) :
  is_Some (working c) →
  committed (set_view c t) = committed c ∧ is_Some (working (set_view c t)).
Proof. intros [w Hw]. unfold set_view. rewrite Hw. by split. Qed.

Lemma apply_body_stmt (s : stmt) (c : conn) :
  body_stmt s → is_Some (working c) →
  committed (apply_stmt s c).1 = committed c
  ∧ (∀ rows, (apply_stmt s c).2 = Ok rows → is_Some (working (apply_stmt s c).1)).
Proof.
  intros Hs Hw. pose proof (set_view_in_transaction c) as Hset.
  destruct s; try done; simpl; repeat case_match; simpl;
    split; try done; try (by apply Hset); intros; by apply Hset.
Qed.

Lemma execute_body_stmt (s : stmt) (c : conn) :
  body_stmt s → is_Some (working c) →
  committed (state_after (execute s) c) = committed c
  ∧ (∀ rows, (execute s c).2 = Ok rows → is_Some (working (state_after (execute s) c))).
Proof.
  intros Hs Hw. unfold state_after, execute.
  destruct (faults c) as [|[|e|e] rest]; simpl; try done.
  - destruct (apply_body_stmt s c Hs Hw) as [Hc Hr].
    by destruct (apply_stmt s c) as [c' r].
  - destruct (apply_body_stmt s (set_faults c rest) Hs Hw) as [Hc Hr].
    by destruct (apply_stmt s (set_faults c rest)) as [c' r].
Qed.

Lemma execute_begin (c : conn) :
  committed (state_after (execute BEGIN_TRANSACTION) c) = committed c
  ∧ (∀ rows, (execute BEGIN_TRANSACTION c).2 = Ok rows →
             is_Some (working (state_after (execute BEGIN_TRANSACTION) c))).
Proof.
  unfold state_after, execute.
  destruct (faults c) as [|[|e|e] rest]; simpl; try done;
    destruct (working c); simpl; split; try done; by eexists.
Qed.

Lemma execute_commit_failed (c c' : conn) (out : list str) (e : exn) :
  execute COMMIT c = (c', out, Raise e) → committed c' = committed c.
Proof.
  unfold execute.
  destruct (faults c) as [|[|e'|e'] rest]; simpl;
    try destruct (working c); simpl; by intros [= <- _ _].
Qed.

Lemma execute_rollback (c : conn) :
  committed (state_after (execute ROLLBACK) c) = committed c.
Proof.
  unfold state_after, execute.
  destruct (faults c) as [|[|e|e] rest]; simpl; try done; by destruct (working c).
Qed.

Lemma rollback_closes (c : conn) :
  faults c = [] → working (state_after (execute ROLLBACK) c) = None.
Proof.
  intros Hf. unfold state_after, execute. rewrite Hf. simpl.
  by destruct (working c) eqn:Hw.
Qed.

(** Inside a transaction, the body statements leave the committed tables
    as they are, however far they get. *)
Lemma run_body (body : list stmt) (c : conn) :
  Forall body_stmt body → is_Some (working c) →
  committed (state_after (execute_all body) c) = committed c
  ∧ ((execute_all body c).2 = Ok () → is_Some (working (state_after (execute_all body) c))).
Proof.
  intros Hbody. revert c. induction Hbody as [|s body Hs _ IH]; intros c Hw; [done|].
  destruct (execute_body_stmt s c Hs Hw) as [Hc Hok].
  unfold state_after in *. cbn [execute_all]. unfold mbind, M_bind.
  destruct (execute s c) as [[c1 o1] [rows|e]]; simpl in *; [|done].
  destruct (IH c1 (Hok rows eq_refl)) as [Hc1 Hok1].
  destruct (execute_all body c1) as [[c2 o2] r2]; simpl in *.
  split; [congruence | done].
Qed.

Lemma run_body_commit_failed (body : list stmt) (c c' : conn) (out : list str) (e : exn) :
  Forall body_stmt body → is_Some (working c) →
  execute_all (body ++ [COMMIT]) c = (c', out, Raise e) →
  committed c' = committed c.
Proof.
  intros Hbody. revert c out. induction Hbody as [|s body Hs _ IH]; intros c out Hw.
  - cbn [app execute_all]. unfold mbind, M_bind, mret, M_ret.
    destruct (execute COMMIT c) as [[c1 o1] [rows|e1]] eqn:Hcommit; [done|].
    intros [= <- _ _]. by eapply execute_commit_failed.
  - destruct (execute_body_stmt s c Hs Hw) as [Hc Hok].
    unfold state_after in *. cbn [app execute_all]. unfold mbind, M_bind.
    destruct (execute s c) as [[c1 o1] [rows|e1]]; simpl in *.
    + destruct (execute_all (body ++ [COMMIT]) c1) as [[c2 o2] r2] eqn:Hrest.
      intros [= <- _ ->]. rewrite <- Hc. eapply IH; [by eapply Hok | exact Hrest].
    + by intros [= <- _ _].
Qed.

Section migration.
Context `{Runtime}.

Lemma migration_statements_shape (consolidated : list Feature) :
  migration_statements consolidated
  = BEGIN_TRANSACTION :: migration_body consolidated ++ [COMMIT]
  ∧ Forall body_stmt (migration_body consolidated).
Proof.
  split.
  - unfold migration_statements, migration_body. simpl.
    by rewrite <- !(assoc_L (++)).
  - unfold migration_body. constructor; [done|].
    apply Forall_app. split; [|by repeat constructor].
    apply Forall_fmap, Forall_true. by intros f.
Qed.

Lemma migration_failed (consolidated : list Feature) (c c1 : conn)
    (out1 : list str) (cause : exn) :
  execute_all (migration_statements consolidated) c = (c1, out1, Raise cause) →
  committed c1 = committed c.
Proof.
  destruct (migration_statements_shape consolidated) as [-> Hbody].
  revert Hbody. generalize (migration_body consolidated). intros body Hbody.
  destruct (execute_begin c) as [Hc Hok]. unfold state_after in *.
  cbn [execute_all]. unfold mbind, M_bind.
  destruct (execute BEGIN_TRANSACTION c) as [[c0 o0] [rows|e0]]; simpl in *.
  - destruct (execute_all (body ++ [COMMIT]) c0) as [[c2 o2] r2] eqn:Hrest.
    intros [= <- _ ->]. rewrite <- Hc.
    eapply run_body_commit_failed; [exact Hbody | by eapply Hok | exact Hrest].
  - by intros [= <- _ _].
Qed.

Lemma migration_prefix (consolidated : list Feature) (c : conn) (k : nat) :
  k < length (migration_statements consolidated) →
  committed (state_after (execute_all (take k (migration_statements consolidated))) c)
  = committed c.
Proof.
  destruct (migration_statements_shape consolidated) as [-> Hbody].
  revert Hbody. generalize (migration_body consolidated). intros body Hbody.
  intros Hk. destruct k as [|k]; [done|].
  rewrite length_cons, length_app in Hk. simpl in Hk.
  cbn [take]. rewrite take_app_le by lia.
  destruct (execute_begin c) as [Hc Hok]. unfold state_after in *.
  cbn [execute_all]. unfold mbind, M_bind.
  destruct (execute BEGIN_TRANSACTION c) as [[c0 o0] [rows|e0]]; simpl in *; [|done].
  destruct (run_body (take k body) c0) as [Hc0 _];
    [by apply Forall_take | by eapply Hok |].
  unfold state_after in Hc0.
  destruct (execute_all (take k body) c0) as [[c2 o2] r2].
  simpl in *. congruence.
Qed.

(** C8. When a statement of the migration fails, whichever it is and
    however it fails, [execute_migration] raises: the error of that
    statement, or, when the ROLLBACK fails too, the error of the ROLLBACK
    with that of the statement as its context. The committed tables, and
    [features] among them, are then what they were before the call, and
    after an Exception, unless a further fault hits the ROLLBACK, no
    transaction is left open.
    Whether the migration fails or not, the committed tables are what they
    were after every proper prefix of its statements. *)
Theorem migration_failure_leaves_table (consolidated : list Feature) (c c1 : conn)
    (out1 : list str) (cause : exn) :
  execute_all (migration_statements consolidated) c = (c1, out1, Raise cause) →
  ∃ c' out e,
    execute_migration consolidated c = (c', out, Raise e)
    ∧ (e = cause ∨ ∃ e2, e = During e2 cause)
    ∧ carries e cause
    ∧ committed c' = committed c
    ∧ committed c' !! "features" = committed c !! "features"
    ∧ (faults c1 = [] → is_exception cause = true →
       working c' = None ∧ view c' = committed c)
    ∧ ∀ k, k < length (migration_statements consolidated) →
           committed (state_after (execute_all (take k (migration_statements consolidated))) c)
           = committed c.
Proof.
  intros Hrun. pose proof (migration_failed _ _ _ _ _ Hrun) as Hc1.
  pose proof (execute_rollback c1) as Hc2.
  pose proof (rollback_closes c1) as Hw2. unfold state_after in Hc2, Hw2.
  unfold execute_migration.
  cbv [mbind M_bind print try_except handling raise]. rewrite Hrun.
  destruct (is_exception cause) eqn:Hcaught;
    [destruct (execute ROLLBACK c1) as [[c2 o2] [rows|e2]]; simpl in Hc2, Hw2|].
  - eexists _, _, _. split; [reflexivity|].
    split; [by left|]. split; [destruct cause; by left|].
    split; [congruence|]. split; [congruence|]. split; [|apply migration_prefix].
    intros Hf _. split; [by apply Hw2|]. unfold view. rewrite (Hw2 Hf). congruence.
  - eexists _, _, _. split; [reflexivity|].
    split; [right; by eexists|]. split; [right; right; destruct cause; by left|].
    split; [congruence|]. split; [congruence|]. split; [|apply migration_prefix].
    intros Hf _. split; [by apply Hw2|]. unfold view. rewrite (Hw2 Hf). congruence.
  - eexists _, _, _. split; [reflexivity|].
    split; [by left|]. split; [destruct cause; by left|].
    split; [done|]. split; [congruence|]. split; [done | apply migration_prefix].
Qed.

End migration.

(** ** A migration without faults *)

(** Reduce the connection a statement left, and nothing inside the tables. *)
Ltac step_state :=
  cbn [apply_stmt fst snd]; unfold set_working, set_view, view;
  cbn [fst snd working committed faults].

Lemma execute_all_cons_ok (s : stmt) (rest : list stmt) (c c' : conn) (rows : list Row) :
  execute s c = (c', [], Ok rows) → execute_all (s :: rest) c = execute_all rest c'.
Proof.
  intros Hs. cbn [execute_all]. unfold mbind, M_bind. rewrite Hs.
  by destruct (execute_all rest c') as [[c'' out] r].
Qed.

Lemma execute_no_fault (s : stmt) (T : tables) (w : option tables) :
  execute s {| committed := T; working := w; faults := [] |}
  = ((apply_stmt s {| committed := T; working := w; faults := [] |}).1, [],
     (apply_stmt s {| committed := T; working := w; faults := [] |}).2).
Proof. unfold execute. simpl. by destruct (apply_stmt s _). Qed.

Lemma run_inserts (table : string) (rows acc : list Row) (T W : tables) (rest : list stmt) :
  W !! table = Some acc →
  execute_all ((INSERT_INTO table <$> rows) ++ rest)
    {| committed := T; working := Some W; faults := [] |}
  = execute_all rest
      {| committed := T; working := Some (<[table := acc ++ rows]> W); faults := [] |}.
Proof.
  revert acc W. induction rows as [|row rows IH]; intros acc W Hacc.
  - rewrite app_nil_r, insert_id by done. reflexivity.
  - rewrite fmap_cons, <- app_comm_cons.
    erewrite execute_all_cons_ok; last first.
    { rewrite execute_no_fault. step_state. rewrite Hacc. reflexivity. }
    step_state.
    rewrite (IH (acc ++ [row])) by apply lookup_insert_eq.
    by rewrite insert_insert_eq, <- (assoc_L (++)).
Qed.

Section migration_done.
Context `{Runtime}.

(** On a fresh connection without faults, with a table [features] and no
    table [features_consolidated], the migration returns: the consolidated
    records are the new [features], the rows that were there are kept as
    [features_old], the staging table is gone and no transaction is open. *)
Lemma migration_succeeds (consolidated : list Feature) (T : tables) (rows : list Row) :
  T !! "features" = Some rows →
  T !! "features_consolidated" = None →
  ∃ T' out,
    execute_migration consolidated {| committed := T; working := None; faults := [] |}
    = ({| committed := T'; working := None; faults := [] |}, out, Ok ())
    ∧ T' !! "features" = Some (to_row <$> consolidated)
    ∧ T' !! "features_old" = Some rows
    ∧ T' !! "features_consolidated" = None.
Proof.
  intros Hfeatures Hstaging.
  assert (∃ T', execute_all (migration_statements consolidated)
                  {| committed := T; working := None; faults := [] |}
                = ({| committed := T'; working := None; faults := [] |}, [], Ok ())
                ∧ T' !! "features" = Some (to_row <$> consolidated)
                ∧ T' !! "features_old" = Some rows
                ∧ T' !! "features_consolidated" = None) as (T' & Hrun & Hlook).
  { unfold migration_statements.
    replace ((λ f, INSERT_INTO "features_consolidated" (to_row f)) <$> consolidated)
      with (INSERT_INTO "features_consolidated" <$> (to_row <$> consolidated))
      by (by rewrite <- list_fmap_compose).
    cbn [app].
    erewrite execute_all_cons_ok; last by rewrite execute_no_fault.
    step_state.
    erewrite execute_all_cons_ok; last first.
    { rewrite execute_no_fault. step_state.
      rewrite Hstaging, Hfeatures. reflexivity. }
    step_state.
    rewrite (run_inserts _ _ []) by apply lookup_insert_eq.
    rewrite insert_insert_eq. cbn [app].
    erewrite execute_all_cons_ok; last by rewrite execute_no_fault.
    step_state.
    erewrite execute_all_cons_ok; last first.
    { rewrite execute_no_fault. step_state.
      rewrite lookup_delete_ne, lookup_insert_ne, Hfeatures by done.
      rewrite lookup_delete_eq. reflexivity. }
    step_state.
    erewrite execute_all_cons_ok; last first.
    { rewrite execute_no_fault. step_state.
      rewrite lookup_insert_ne, lookup_delete_ne, lookup_delete_ne, lookup_insert_eq by done.
      rewrite lookup_insert_ne, lookup_delete_eq by done. reflexivity. }
    step_state.
    erewrite execute_all_cons_ok; last by rewrite execute_no_fault.
    step_state. eexists. split; [reflexivity|].
    split; [by rewrite lookup_insert_eq|]. split.
    - by rewrite lookup_insert_ne, lookup_delete_ne, lookup_insert_eq.
    - by rewrite lookup_insert_ne, lookup_delete_eq. }
  exists T'. unfold execute_migration.
  cbv [mbind M_bind print try_except handling raise]. rewrite Hrun.
  eexists. split; [reflexivity | exact Hlook].
Qed.

End migration_done.

(** ** The store on the worked inputs *)

Lemma migration_failure_leaves_table_witness :
  ∃ c' out e,
    @execute_migration example_runtime merged_rows failing_store = (c', out, Raise e)
    ∧ carries e DISK_FULL
    ∧ committed c' !! "features" = Some stored_rows.
Proof.
  assert (∃ c1 out1,
            execute_all (@migration_statements example_runtime merged_rows) failing_store
            = (c1, out1, Raise DISK_FULL)) as (c1 & out1 & Hrun)
    by (eexists _, _; vm_compute; reflexivity).
  destruct (@migration_failure_leaves_table example_runtime merged_rows failing_store
              c1 out1 DISK_FULL Hrun)
    as (c' & out & e & Hm & _ & Hcarries & _ & Hfeatures & _ & _).
  exists c', out, e. split; [done|]. split; [done|].
  rewrite Hfeatures. reflexivity.
Defined.

(** Without a fault the migration goes through: the parents are the new
    [features], the old rows are kept as [features_old], and no
    transaction is left open. *)
Example migration_on_healthy_store :
  ∃ c' out,
    @execute_migration example_runtime merged_rows healthy_store = (c', out, Ok ())
    ∧ committed c' !! "features" = Some (@to_row example_runtime <$> merged_rows)
    ∧ committed c' !! "features_old" = Some stored_rows
    ∧ committed c' !! "features_consolidated" = None
    ∧ working c' = None.
Proof. eexists _, _. split; [vm_compute; reflexivity|]. by vm_compute. Qed.

Lemma preview_writes_nothing_witness :
  state_after (@main example_runtime preview_args) healthy_store = healthy_store
  ∧ committed (state_after (@main example_runtime preview_args) healthy_store)
    = committed healthy_store.
Proof.
  destruct (@preview_writes_nothing example_runtime preview_args healthy_store
              eq_refl eq_refl) as (Hsame & _ & Hleft).
  split; [by apply Hleft | exact Hsame].
Defined.

(** * Further properties of the script *)

(** ** Identifiers and counts *)

Lemma heads_sublist (groups : list (list Feature)) (out : list Feature) :
  Forall2 (λ group parent, ∃ first, head group = Some first ∧ id parent = id first)
    groups out →
  id <$> out `sublist_of` id <$> mjoin groups.
Proof.
  induction 1 as [|group parent groups out (first & Hhead & Hid) _ IH]; [done|].
  destruct group as [|f rest]; [done|]. injection Hhead as ->.
  rewrite fmap_cons, Hid.
  change (mjoin ((first :: rest) :: groups)) with (first :: (rest ++ mjoin groups)).
  rewrite fmap_cons, fmap_app.
  apply sublist_skip. by apply sublist_inserts_l.
Qed.

Lemma consolidate_category_ids (features : list Feature) (cat : str) (out : list Feature) :
  consolidate_category features cat = Ok out →
  id <$> out `sublist_of` id <$> features.
Proof.
  intros Hout.
  destruct (decide (length features ≤ 3)) as [Hn|Hn].
  { rewrite consolidate_category_small in Hout by done. by injection Hout as <-. }
  destruct (decide (cat = AUDIO_SYSTEM)) as [->|Hc].
  { rewrite consolidate_category_no_factor in Hout. by injection Hout as <-. }
  rewrite consolidate_category_chunked in Hout by (done || lia).
  apply mapM_Ok in Hout.
  replace (id <$> features) with (id <$> mjoin (chunks features))
    by by rewrite join_chunks.
  apply heads_sublist. eapply Forall2_impl; [exact Hout|].
  intros group parent Hp. by apply make_parent_Ok in Hp as [[] _].
Qed.

Lemma consolidate_category_length (features : list Feature) (cat : str) (out : list Feature) :
  consolidate_category features cat = Ok out →
  length out ≤ length features ∧ length features ≤ 4 * length out.
Proof.
  intros Hout.
  destruct (decide (length features ≤ 3)) as [Hn|Hn].
  { rewrite consolidate_category_small in Hout by done. injection Hout as <-. lia. }
  destruct (decide (cat = AUDIO_SYSTEM)) as [->|Hc].
  { rewrite consolidate_category_no_factor in Hout. injection Hout as <-. lia. }
  destruct (consolidate_category_reduces features cat out) as [Hlen Hlt]; [lia | done | done |].
  split; [lia|]. rewrite Hlen.
  pose proof (ceil_div_cover (length features) _ (chunk_factor_pos (length features))).
  destruct (chunk_factor_cases (length features)) as [[_ Hf]|[_ Hf]]; rewrite Hf in *; lia.
Qed.

Lemma outputs_ids (items : list (str * list Feature)) (outs : list (list Feature)) :
  Forall2 (λ item o, consolidate_category item.2 item.1 = Ok o) items outs →
  id <$> mjoin outs ⊆+ id <$> mjoin items.*2.
Proof.
  induction 1 as [|[cat fs] o items outs Ho _ IH]; [done|].
  rewrite fmap_cons. simpl in *. rewrite !fmap_app.
  apply submseteq_app; [|done].
  by apply sublist_submseteq, (consolidate_category_ids fs cat).
Qed.

Lemma outputs_length (items : list (str * list Feature)) (outs : list (list Feature)) :
  Forall2 (λ item o, consolidate_category item.2 item.1 = Ok o) items outs →
  length (mjoin outs) ≤ length (mjoin items.*2)
  ∧ length (mjoin items.*2) ≤ 4 * length (mjoin outs).
Proof.
  induction 1 as [|[cat fs] o items outs Ho _ IH]; [simpl; lia|].
  rewrite fmap_cons. simpl in *. rewrite !length_app.
  apply consolidate_category_length in Ho. lia.
Qed.

Section whole_table_counts.
Context `{Runtime}.

(** X1. Consolidation invents no identifier and repeats none: the ids of
    the output are ids of the input, each used as often at most, so a
    table with distinct ids is consolidated into one with distinct ids. *)
Theorem consolidated_ids_distinct (features out : list Feature) (stats : Stats) :
  NoDup (id <$> features) →
  consolidate_features features = Ok (out, stats) →
  NoDup (id <$> out) ∧ id <$> out ⊆+ id <$> features.
Proof.
  intros Hnodup (items & outs & Hjoin & Houts & ->)%consolidate_features_Ok.
  assert (id <$> mjoin outs ⊆+ id <$> features) as Hsub.
  { rewrite <- Hjoin. by apply outputs_ids. }
  split; [|done].
  apply submseteq_Permutation in Hsub as [k Hk]. rewrite Hk in Hnodup.
  by apply NoDup_app in Hnodup as [? _].
Qed.

(** X2. [validate] can pass on what [consolidate_all] made of a table
    only if the table has more than 250 and at most 2400 records: the
    output has at least a quarter of the records of the input, and never
    more than the input. *)
Theorem validation_passes_only_between (features out : list Feature) (stats : Stats)
    (c c' : conn) (printed : list str) :
  consolidate_features features = Ok (out, stats) →
  validate features out c = (c', printed, Ok ()) →
  250 < length features ∧ length features ≤ 2400
  ∧ length out ≤ length features ∧ length features ≤ 4 * length out.
Proof.
  intros (items & outs & Hjoin & Houts & ->)%consolidate_features_Ok Hvalid.
  apply outputs_length in Houts as [Hle Hge]. rewrite Hjoin in Hle, Hge.
  cut (length (mjoin outs) < length features
       ∧ 250 ≤ length (mjoin outs) ∧ length (mjoin outs) ≤ 600); [lia|].
  revert Hvalid. unfold validate. cbv [mbind M_bind print assert raise mret M_ret].
  destruct (bool_decide (length (mjoin outs) < length features)) eqn:Hless; [|done].
  destruct (bool_decide (250 ≤ length (mjoin outs))) eqn:Hlo; [|done].
  destruct (bool_decide (length (mjoin outs) ≤ 600)) eqn:Hhi; [|done].
  apply bool_decide_eq_true in Hless, Hlo, Hhi. done.
Qed.

End whole_table_counts.

(** ** The dict of categories *)

Lemma filter_none {A} (P : A → Prop) `{∀ x, Decision (P x)} (l : list A) :
  Forall (λ x, ¬ P x) l → filter P l = [].
Proof.
  induction 1 as [|x l Hx _ IH]; [done|]. by rewrite filter_cons_False.
Qed.

Lemma dict_append_elem (by_cat : list (str * list Feature)) (f : Feature)
    (c : str) (fs : list Feature) :
  NoDup by_cat.*1 →
  (c, fs) ∈ dict_append by_cat f →
  (c ≠ category f ∧ (c, fs) ∈ by_cat)
  ∨ (c = category f
     ∧ ∃ fs0, fs = fs0 ++ [f] ∧ ((c, fs0) ∈ by_cat ∨ (fs0 = [] ∧ c ∉ by_cat.*1))).
Proof.
  induction by_cat as [|[c0 fs0] rest IH]; cbn [dict_append].
  - intros _ [= -> ->]%list_elem_of_singleton. right. split; [done|].
    exists []. split; [done|]. right. split; [done|]. by intros ?%elem_of_nil.
  - rewrite fmap_cons. cbn [fst]. intros [Hc0 Hrest]%NoDup_cons.
    destruct (decide (c0 = category f)) as [->|Hne].
    + intros [[= -> ->]|Hin]%elem_of_cons.
      * right. split; [done|]. exists fs0. split; [done|]. left. by left.
      * left. split; [|by right].
        intros ->. apply Hc0. apply list_elem_of_fmap. by exists (category f, fs).
    + intros [[= -> ->]|Hin]%elem_of_cons.
      * left. split; [done | by left].
      * destruct (IH Hrest Hin) as [[Hc Hin']|(-> & fs1 & -> & Hcase)].
        -- left. split; [done | by right].
        -- right. split; [done|]. exists fs1. split; [done|].
           destruct Hcase as [Hin'|[-> Hnot]]; [left; by right|].
           right. split; [done|]. intros [?|?]%elem_of_cons; [congruence | done].
Qed.

Lemma group_by_category_snoc (features : list Feature) (f : Feature) :
  group_by_category (features ++ [f]) = dict_append (group_by_category features) f.
Proof. unfold group_by_category. by rewrite foldl_snoc. Qed.

Lemma group_by_category_covers (features : list Feature) (f : Feature) :
  f ∈ features → category f ∈ (group_by_category features).*1.
Proof.
  induction features as [|f' features IH] using rev_ind; [by intros ?%elem_of_nil|].
  rewrite group_by_category_snoc, dict_append_keys.
  intros [Hin| ->%list_elem_of_singleton]%elem_of_app.
  - case_decide; [by apply IH|]. apply elem_of_app. left. by apply IH.
  - case_decide; [done|]. apply elem_of_app. right. by left.
Qed.

Lemma group_by_category_filter (features : list Feature) (c : str) (fs : list Feature) :
  (c, fs) ∈ group_by_category features →
  fs = filter (λ f, category f = c) features.
Proof.
  revert c fs. induction features as [|f features IH] using rev_ind; intros c fs.
  { by intros ?%elem_of_nil. }
  rewrite group_by_category_snoc, filter_app.
  intros [[Hc Hin]|(-> & fs0 & -> & Hcase)]%dict_append_elem;
    [| |apply group_by_category_keys].
  - rewrite (filter_cons_False _ f) by done. rewrite filter_nil, app_nil_r. by apply IH.
  - rewrite (filter_cons_True _ f) by done. rewrite filter_nil. f_equal.
    destruct Hcase as [Hin|[-> Hnot]]; [by apply IH|].
    symmetry. apply filter_none, Forall_forall. intros f' Hf' Hcat.
    apply Hnot. rewrite <- Hcat. by apply group_by_category_covers.
Qed.

Lemma group_by_category_complete (features : list Feature) (f : Feature) :
  f ∈ features →
  (category f, filter (λ f', category f' = category f) features)
  ∈ group_by_category features.
Proof.
  intros Hf. pose proof (group_by_category_covers features f Hf) as Hkey.
  apply list_elem_of_fmap in Hkey as ([c fs] & Hc & Hin). simpl in Hc. subst c.
  by rewrite <- (group_by_category_filter _ _ _ Hin).
Qed.

(** ** The order of the categories *)

Lemma str_le_total (a b : str) : str_le a b ∨ str_le b a.
Proof.
  revert b. induction a as [|x a IH]; intros [|y b]; simpl; auto.
  destruct (N.ltb_spec x y), (N.ltb_spec y x); simpl; auto; lia.
Qed.

Lemma str_le_trans (a b c : str) : str_le a b → str_le b c → str_le a c.
Proof.
  revert b c. induction a as [|x a IH]; intros [|y b] [|z c]; simpl; try done.
  destruct (N.ltb_spec x y), (N.ltb_spec y x), (N.ltb_spec y z), (N.ltb_spec z y),
    (N.ltb_spec x z), (N.ltb_spec z x); simpl; try done; try lia.
  apply IH.
Qed.

#[global] Instance item_le_total : Total item_le.
Proof. intros a b. apply str_le_total. Qed.

#[global] Instance item_le_trans : Transitive item_le.
Proof. intros a b c. apply str_le_trans. Qed.

Lemma sorted_items_keys (items : list (str * list Feature)) :
  StronglySorted item_le items → StronglySorted (λ a b, str_le a b) items.*1.
Proof.
  induction 1 as [|item items _ IH Hall]; [constructor|].
  rewrite fmap_cons. constructor; [done|]. by apply Forall_fmap.
Qed.

(** ** The statistics *)

Lemma Forall2_sum {A B} (f : A → nat) (g : B → nat) (l : list A) (k : list B) :
  Forall2 (λ x y, f x = g y) l k → sum_list_with f l = sum_list_with g k.
Proof. induction 1 as [|x y l k Hxy _ IH]; [done|]. simpl. by rewrite Hxy, IH. Qed.

Lemma length_join_sum {A} (ls : list (list A)) :
  length (mjoin ls) = sum_list_with length ls.
Proof. induction ls as [|l ls IH]; [done|]. simpl. by rewrite length_app, IH. Qed.

Section statistics.
Context `{Runtime}.

Lemma consolidate_loop_entries (items : list (str * list Feature))
    (acc : list Feature * list (str * CategoryStats))
    (out : list Feature) (st : list (str * CategoryStats)) :
  consolidate_loop items acc = Ok (out, st) →
  ∃ outs entries,
    Forall2 (λ item o, consolidate_category item.2 item.1 = Ok o) items outs
    ∧ out = acc.1 ++ mjoin outs
    ∧ st = acc.2 ++ entries
    ∧ Forall2 (λ item entry, entry.1 = item.1 ∧ cat_before entry.2 = length item.2)
        items entries
    ∧ Forall2 (λ o entry, cat_after entry.2 = length o) outs entries.
Proof.
  revert acc. induction items as [|[cat fs] items IH]; intros acc; simpl.
  - intros [= ->]. exists [], []. by rewrite !app_nil_r.
  - destruct (consolidate_category fs cat) as [o|e] eqn:Ho; [|discriminate].
    cbn [mbind result_bind].
    destruct (reduction_percent (length fs) (length o)) as [red|e]; [|discriminate].
    cbn [mbind result_bind]. intros Hloop.
    apply IH in Hloop as (outs & entries & Houts & -> & -> & Hbefore & Hafter).
    eexists (o :: outs), (_ :: entries). simpl.
    split; [by constructor|]. split; [by rewrite (assoc_L (++))|].
    split; [by rewrite <- (assoc_L (++))|]. split; by constructor.
Qed.

Lemma consolidate_features_entries (features out : list Feature) (stats : Stats) :
  consolidate_features features = Ok (out, stats) →
  ∃ outs,
    Forall2 (λ item o, consolidate_category item.2 item.1 = Ok o)
      (merge_sort item_le (group_by_category features)) outs
    ∧ out = mjoin outs
    ∧ before stats = length features
    ∧ after stats = length out
    ∧ Forall2 (λ item entry, entry.1 = item.1 ∧ cat_before entry.2 = length item.2)
        (merge_sort item_le (group_by_category features)) (by_category stats)
    ∧ Forall2 (λ o entry, cat_after entry.2 = length o) outs (by_category stats).
Proof.
  unfold consolidate_features.
  destruct (consolidate_loop _ _) as [[out' st]|e] eqn:Hloop; [|discriminate].
  cbn [mbind result_bind]. intros [= <- <-].
  apply consolidate_loop_entries in Hloop
    as (outs & entries & Houts & -> & -> & Hbefore & Hafter).
  by exists outs.
Qed.

(** X3. The statistics of [consolidate_all] add up: the per-category
    counts before sum to [before], the number of input records; those
    after sum to [after], the number of output records; every category
    listed had at least one record, keeps at least one and does not grow;
    and the categories listed are those of the input, each once. *)
Theorem statistics_add_up (features out : list Feature) (stats : Stats) :
  consolidate_features features = Ok (out, stats) →
  before stats = length features
  ∧ after stats = length out
  ∧ sum_list_with (λ entry, cat_before entry.2) (by_category stats) = before stats
  ∧ sum_list_with (λ entry, cat_after entry.2) (by_category stats) = after stats
  ∧ Forall (λ entry, 0 < cat_after entry.2 ∧ cat_after entry.2 ≤ cat_before entry.2)
      (by_category stats)
  ∧ after stats ≤ before stats
  ∧ NoDup (by_category stats).*1
  ∧ ∀ c, c ∈ (by_category stats).*1 ↔ ∃ f, f ∈ features ∧ category f = c.
Proof.
  intros (outs & Houts & -> & Hbefore & Hafter & Hkeys & Hcounts)%consolidate_features_entries.
  set (items := merge_sort item_le (group_by_category features)) in *.
  assert (items ≡ₚ group_by_category features) as Hperm by apply merge_sort_Permutation.
  assert ((by_category stats).*1 = items.*1) as Hfst.
  { clear -Hkeys. induction Hkeys as [|item entry items entries [Hk _] _ IH]; [done|].
    rewrite !fmap_cons. by f_equal. }
  assert (length (mjoin items.*2) = length features) as Hlen
    by by rewrite Hperm, group_by_category_join.
  split; [done|]. split; [done|]. split; [|split; [|split; [|split; [|split]]]].
  - rewrite Hbefore, <- Hlen, length_join_sum. symmetry.
    clear -Hkeys. induction Hkeys as [|item entry items entries [_ Hb] _ IH]; [done|].
    rewrite fmap_cons. simpl. by rewrite Hb, IH.
  - rewrite Hafter, length_join_sum. symmetry. apply Forall2_sum.
    eapply Forall2_impl; [exact Hcounts|]. by intros o entry ->.
  - assert (Forall (λ item : str * list Feature, item.2 ≠ []) items) as Hne
      by (rewrite Hperm; apply group_by_category_nonempty).
    clear -Houts Hkeys Hcounts Hne.
    revert outs Houts Hcounts.
    induction Hkeys as [|item entry items entries [_ Hb] _ IH]; intros outs Houts Hcounts;
      [constructor|].
    inversion Houts as [|? o ? outs' Ho Houts']; subst.
    inversion Hcounts as [|? ? ? ? Ha Hcounts']; subst.
    inversion Hne as [|? ? Hitem Hne']; subst.
    constructor; [|by eapply IH].
    apply consolidate_category_length in Ho. rewrite Ha, Hb.
    destruct item.2; [done|]. simpl in *. lia.
  - rewrite Hbefore, Hafter, <- Hlen. by apply outputs_length in Houts as [? _].
  - rewrite Hfst, Hperm. apply group_by_category_keys.
  - intros c. rewrite Hfst, Hperm. split.
    + intros ([c' fs] & -> & Hin)%list_elem_of_fmap. simpl.
      pose proof (group_by_category_filter _ _ _ Hin) as Hfs.
      pose proof (group_by_category_nonempty features) as Hne.
      rewrite Forall_forall in Hne. specialize (Hne _ Hin). simpl in Hne.
      destruct fs as [|f fs]; [done|].
      assert (f ∈ filter (λ f, category f = c') features) as Hf by (rewrite <- Hfs; by left).
      apply list_elem_of_filter in Hf as [Hcat Hf]. by exists f.
    + intros (f & Hf & <-). by apply group_by_category_covers.
Qed.

(** X4. [consolidate_all] is the consolidation of each category by
    itself, put end to end in the ascending order of the category names:
    the categories are those of the input, each once; the records handed
    to [consolidate_category] for a category are the records of that
    category in the order of the input; and the statistics list the
    categories in the same order. *)
Theorem consolidate_all_by_category (features out : list Feature) (stats : Stats) :
  consolidate_features features = Ok (out, stats) →
  ∃ cats outs,
    StronglySorted (λ a b, str_le a b) cats
    ∧ NoDup cats
    ∧ (∀ c, c ∈ cats ↔ ∃ f, f ∈ features ∧ category f = c)
    ∧ Forall2 (λ c o,
         consolidate_category (filter (λ f, category f = c) features) c = Ok o)
        cats outs
    ∧ out = mjoin outs
    ∧ (by_category stats).*1 = cats.
Proof.
  intros (outs & Houts & -> & _ & _ & Hkeys & _)%consolidate_features_entries.
  set (items := merge_sort item_le (group_by_category features)) in *.
  assert (items ≡ₚ group_by_category features) as Hperm by apply merge_sort_Permutation.
  exists items.*1, outs.
  split; [apply sorted_items_keys, StronglySorted_merge_sort; apply _|].
  split; [rewrite Hperm; apply group_by_category_keys|].
  split; [|split; [|split; [done|]]].
  - intros c. rewrite Hperm. split.
    + intros ([c' fs] & -> & Hin)%list_elem_of_fmap. simpl.
      pose proof (group_by_category_filter _ _ _ Hin) as Hfs.
      pose proof (group_by_category_nonempty features) as Hne.
      rewrite Forall_forall in Hne. specialize (Hne _ Hin). simpl in Hne.
      destruct fs as [|f fs]; [done|].
      assert (f ∈ filter (λ f, category f = c') features) as Hf by (rewrite <- Hfs; by left).
      apply list_elem_of_filter in Hf as [Hcat Hf]. by exists f.
    + intros (f & Hf & <-). by apply group_by_category_covers.
  - apply Forall2_fmap_l.
    assert (Forall (λ item, item ∈ group_by_category features) items) as Hin
      by (apply Forall_forall; intros item; by rewrite Hperm).
    clear -Houts Hin. induction Houts as [|[c fs] o items outs Ho _ IH]; [constructor|].
    inversion Hin as [|? ? Hitem Hin']; subst.
    constructor; [|by apply IH].
    simpl in *. by rewrite <- (group_by_category_filter _ _ _ Hitem).
  - clear -Hkeys. induction Hkeys as [|item entry items entries [Hk _] _ IH]; [done|].
    rewrite !fmap_cons. by f_equal.
Qed.

End statistics.


(** ** Reading the merged steps back *)

Lemma unindent_indented (s : str) : unindent (indented s) = Some s.
Proof. unfold unindent, indented. by rewrite decide_True. Qed.

Lemma unindent_marker (child : Feature) : unindent (marker_line child) = None.
Proof. unfold unindent, marker_line. by rewrite decide_False. Qed.

Lemma read_marker_indented (s : str) : read_marker (indented s) = None.
Proof. done. Qed.

Lemma read_marker_marker (child : Feature) :
  read_marker (marker_line child) = Some (passes child, name child).
Proof. unfold marker_line, status_icon. destruct (passes child); reflexivity. Qed.

(** X5. The merged steps can be read back, and nothing in them is out of
    order: the step lines, without their prefix, are the steps of the
    children, child after child, each child's steps in their own order;
    the marker lines give the children's pass flags and names in the
    order of the children. *)
Theorem merge_steps_read_back (group : list Feature) :
  omap unindent (merge_steps group) = group ≫= steps
  ∧ omap read_marker (merge_steps group) = (λ child, (passes child, name child)) <$> group.
Proof.
  unfold merge_steps. split.
  - induction group as [|child group IH]; [done|].
    rewrite !bind_cons, omap_app, IH. f_equal.
    cbn [omap list_omap]. rewrite unindent_marker.
    induction (steps child) as [|s ss IHs]; [done|].
    rewrite fmap_cons. cbn [omap list_omap]. rewrite unindent_indented. by f_equal.
  - induction group as [|child group IH]; [done|].
    rewrite bind_cons, omap_app, IH, fmap_cons.
    cbn [omap list_omap]. rewrite read_marker_marker. cbn [app]. f_equal.
    induction (steps child) as [|s ss IHs]; [done|].
    rewrite fmap_cons. cbn [omap list_omap]. by rewrite read_marker_indented.
Qed.

(** ** The name of a parent *)

Lemma split_from_first (word s w : str) (ws : list str) :
  split_from word s = w :: ws →
  ∃ pre run post,
    s = pre ++ run ++ post ∧ w = word ++ run
    ∧ blank pre = true ∧ (word ≠ [] → pre = []) ∧ (word = [] → run ≠ [])
    ∧ forallb (λ c, negb (isspace c)) run = true
    ∧ match post with [] => True | c :: _ => isspace c = true end.
Proof.
  revert word. induction s as [|c s IH]; intros word; simpl.
  - destruct word as [|x word]; [discriminate|]. intros [= <- _].
    exists [], [], []. repeat split; rewrite ?app_nil_r; done || (intros; congruence).
  - destruct (isspace c) eqn:Hc.
    + destruct word as [|x word].
      * intros (pre & run & post & -> & -> & Hpre & _ & Hne & Hrun & Hpost)%IH.
        exists (c :: pre), run, post. simpl. rewrite Hc. by repeat split.
      * intros [= <- _]. exists [], [], (c :: s). simpl. 
        repeat split; rewrite ?app_nil_r; done || (intros; congruence).
    + intros (pre & run & post & -> & -> & Hpre & Hnil & _ & Hrun & Hpost)%IH.
      rewrite Hnil by by destruct word. exists [], (c :: run), post. simpl.
      rewrite Hc, <- (assoc_L (++)). repeat split; done || (intros; congruence).
Qed.

Lemma split_first_word (s w : str) (ws : list str) : split s = w :: ws → first_word w s.
Proof.
  unfold split.
  intros (pre & run & post & -> & -> & Hpre & _ & Hne & Hrun & Hpost)%split_from_first.
  simpl. split; [by apply Hne|]. split; [done|]. by exists pre, post.
Qed.

(** X6. A parent built from more than one record is named
    "Implement W Subsystem", W being the first word of the name of the
    first record, so its name is never blank; a parent built from a
    single record keeps the name of that record. *)
Theorem parent_name_shape (cat : str) (group : list Feature) (parent : Feature) :
  make_parent cat group = Ok parent →
  ∃ first,
    head group = Some first
    ∧ (length group = 1 → name parent = name first)
    ∧ (1 < length group →
       blank (name parent) = false
       ∧ ∃ w, first_word w (name first)
              ∧ name parent = lit "Implement " ++ w ++ lit " Subsystem").
Proof.
  unfold make_parent. destruct group as [|first rest]; [discriminate|].
  cbn [first_item fmap list_fmap py_min mbind result_bind].
  unfold parent_name. case_decide as Hlen.
  - destruct (split (name first)) as [|w ws] eqn:Hsplit; [discriminate|].
    cbn [first_item mbind result_bind]. intros [= <-]. cbn [name].
    exists first. split; [done|]. split; [lia|]. intros _. split; [done|].
    exists w. split; [by eapply split_first_word | done].
  - cbn [mbind result_bind]. intros [= <-]. cbn [name].
    exists first. split; [done|]. split; [done | lia].
Qed.

Lemma parent_name_shape_witness :
  ∃ parent,
    make_parent WALLET (take 3 wallet_features) = Ok parent
    ∧ name parent = lit "Implement Connect Subsystem"
    ∧ blank (name parent) = false.
Proof.
  destruct (make_parent WALLET (take 3 wallet_features)) as [parent|e] eqn:Hp;
    [|vm_compute in Hp; discriminate].
  destruct (parent_name_shape _ _ _ Hp) as (first & Hhead & _ & Hmany).
  destruct Hmany as [Hblank _]; [vm_compute; lia|].
  exists parent. split; [done|]. split; [|done].
  vm_compute in Hp. by injection Hp as <-.
Defined.

(** ** The category given to [consolidate_category] *)

Lemma make_parent_category (c1 c2 : str) (group : list Feature) :
  make_parent c2 group
  = match make_parent c1 group with
    | Ok parent => Ok (with_category c2 parent)
    | Raise e => Raise e
    end.
Proof.
  unfold make_parent. destruct group as [|first rest]; [done|].
  cbn [first_item fmap list_fmap py_min mbind result_bind].
  by destruct (parent_name first (first :: rest)).
Qed.

Lemma mapM_make_parent_category (c1 c2 : str) (groups : list (list Feature)) :
  (mapM (make_parent c2) groups : result (list Feature))
  = match (mapM (make_parent c1) groups : result (list Feature)) with
    | Ok out => Ok (with_category c2 <$> out)
    | Raise e => Raise e
    end.
Proof.
  induction groups as [|group groups IH]; [done|].
  cbn [mapM]. rewrite IH, (make_parent_category c1 c2).
  destruct (make_parent c1 group); [|done]. cbn [mbind result_bind].
  by destruct (mapM (make_parent c1) groups).
Qed.

(** X7. Apart from "Audio System", the name of the category decides
    nothing but the [category] of the parents: on more than 3 records two
    such categories give the same parents up to that field, or the same
    exception. The [target_count] and the value of the factor in the rules
    are not read, and a category called "default" is treated as any
    other. *)
Theorem category_only_labels (features : list Feature) (c1 c2 : str) :
  3 < length features → c1 ≠ AUDIO_SYSTEM → c2 ≠ AUDIO_SYSTEM →
  consolidate_category features c2
  = match consolidate_category features c1 with
    | Ok out => Ok (with_category c2 <$> out)
    | Raise e => Raise e
    end.
Proof.
  intros Hn H1 H2. rewrite !consolidate_category_chunked by done.
  apply mapM_make_parent_category.
Qed.

Lemma category_only_labels_witness :
  ∃ out,
    consolidate_category wallet_features WALLET = Ok out
    ∧ consolidate_category wallet_features (lit "default") = Ok (with_category (lit "default") <$> out).
Proof.
  destruct (consolidate_category wallet_features WALLET) as [out|e] eqn:Hout;
    [|vm_compute in Hout; discriminate].
  exists out. split; [done|].
  rewrite (category_only_labels wallet_features WALLET (lit "default"));
    [by rewrite Hout | vm_compute; lia | apply wallet_not_audio | discriminate].
Defined.

(** ** [validate] after [consolidate_all] *)

Section validate_after.
Context `{Runtime}.

(** X8. On what [consolidate_all] made of a table, [validate] never
    prints the warning about lost steps: the steps preserved line is
    printed whenever the two count checks pass. *)
Theorem no_warning_after_consolidation (features out : list Feature) (stats : Stats)
    (c : conn) :
  consolidate_features features = Ok (out, stats) →
  ∀ c' printed r,
    validate features out c = (c', printed, r) →
    (WARNING_LINE ∉ printed)
    ∧ (r = Ok () →
       (CHECK_MARK :: lit " Steps preserved ("
          ++ str_of_nat (total_steps out - total_steps features)
          ++ lit " parent names added)") ∈ printed).
Proof.
  intros (items & outs & Hjoin & Houts & ->)%consolidate_features_Ok c' printed r.
  assert (total_steps features ≤ total_steps (mjoin outs)) as Hsteps.
  { apply total_steps_outputs in Houts. unfold total_steps in *. by rewrite <- Hjoin. }
  assert (∀ rest, WARNING_LINE ∉ rest →
            WARNING_LINE ∉
              (10%N :: lit "=== Validation ===")
              :: (lit "Original features: " ++ str_of_nat (length features))
              :: (lit "Consolidated features: " ++ str_of_nat (length (mjoin outs)))
              :: (lit "Original steps: " ++ str_of_nat (total_steps features))
              :: (lit "Consolidated steps: " ++ str_of_nat (total_steps (mjoin outs)))
              :: rest) as Hhead.
  { intros rest Hrest Hin.
    repeat (apply elem_of_cons in Hin as [Hin|Hin]; [discriminate Hin|]). done. }
  unfold validate.
  cbv [mbind M_bind print assert raise mret M_ret].
  destruct (bool_decide (length (mjoin outs) < length features));
    [destruct (bool_decide (250 ≤ length (mjoin outs)));
     [destruct (bool_decide (length (mjoin outs) ≤ 600))|]|];
    cbn [andb app].
  - case_decide; [lia|]. cbn [app]. intros [= _ <- <-]. split.
    + apply Hhead. intros Hin.
      repeat (apply elem_of_cons in Hin as [Hin|Hin]; [discriminate Hin|]).
      by apply elem_of_nil in Hin.
    + intros _. do 5 right. by left.
  - intros [= _ <- <-]. split; [|done]. apply Hhead. by intros ?%elem_of_nil.
  - intros [= _ <- <-]. split; [|done]. apply Hhead. by intros ?%elem_of_nil.
  - intros [= _ <- <-]. split; [|done]. apply Hhead. by intros ?%elem_of_nil.
Qed.

End validate_after.

(** ** Rows and records *)

Section rows.
Context `{Runtime}.

Lemma truthy_b2z (b : bool) : truthy (Z.b2z b) = b.
Proof. by destruct b. Qed.

Lemma to_row_read_back (f : Feature) : reads_back f → from_row (to_row f) = Ok f.
Proof.
  intros [Hne Hback]. unfold from_row, to_row. cbn [r_steps].
  destruct (json_dumps (steps f)) as [|c text] eqn:Htext; [done|].
  rewrite Hback. cbn [mbind result_bind r_id r_priority r_category r_name
    r_description r_passes r_in_progress r_blocked_by_intervention_id r_deferred].
  rewrite !truthy_b2z. by destruct f.
Qed.


(** X9. A record written by the migration is read back as it was: the
    flags survive the passage through 0 and 1, and the steps survive
    whenever the runtime reads back the text it wrote for them and that
    text is not empty. *)
Theorem from_row_to_row (f : Feature) : reads_back f → from_row (to_row f) = Ok f.
Proof. apply to_row_read_back. Qed.




#[global] Instance priority_le_trans : Transitive priority_le.
Proof. intros a b c. unfold priority_le. lia. Qed.

#[global] Instance priority_le_total : Total priority_le.
Proof. intros a b. unfold priority_le. lia. Qed.



End rows.

Lemma from_row_to_row_witness :
  @from_row example_runtime (@to_row example_runtime (seeded 1 "Wallet" "Connect" ["a"; "b"]))
  = Ok (seeded 1 "Wallet" "Connect" ["a"; "b"]).
Proof. apply (@from_row_to_row example_runtime). by split. Defined.


(** ** The tables after the migration *)


Section migration_result.
Context `{Runtime}.





End migration_result.



(** ** A migration that cannot start *)

Lemma execute_all_cons_raise (s : stmt) (rest : list stmt) (c c' : conn) (e : exn) :
  execute s c = (c', [], Raise e) → execute_all (s :: rest) c = (c', [], Raise e).
Proof. intros Hs. cbn [execute_all]. unfold mbind, M_bind. by rewrite Hs. Qed.

Section migration_refused.
Context `{Runtime}.

(** X13. On a fresh connection without faults the migration refuses to
    start when a table [features_consolidated] is already there, and when
    there is no table [features]: it raises the OperationalError of the
    CREATE TABLE, rolls back, and leaves the connection and the tables
    exactly as they were. *)
Theorem migration_refused (consolidated : list Feature) (T : tables) :
  let c := {| committed := T; working := None; faults := [] |} in
  (is_Some (T !! "features_consolidated") →
   ∃ printed,
     execute_migration consolidated c
     = (c, printed, operational_error "table features_consolidated already exists"))
  ∧ (T !! "features_consolidated" = None → T !! "features" = None →
     ∃ printed,
       execute_migration consolidated c
       = (c, printed, operational_error "no such table: features")).
Proof.
  intros c. subst c.
  assert (∀ msg,
    execute (CREATE_TABLE_AS_EMPTY "features_consolidated" "features")
      {| committed := T; working := Some T; faults := [] |}
    = ({| committed := T; working := Some T; faults := [] |}, [], operational_error msg) →
    ∃ printed,
      execute_migration consolidated {| committed := T; working := None; faults := [] |}
      = ({| committed := T; working := None; faults := [] |}, printed,
         operational_error msg)) as Hcreate.
  { intros msg Hfail. unfold execute_migration, migration_statements. cbn [app].
    cbv [mbind M_bind print try_except handling raise].
    erewrite execute_all_cons_ok; last by rewrite execute_no_fault.
    step_state. erewrite execute_all_cons_raise; last exact Hfail.
    unfold operational_error. cbn [is_exception].
    rewrite execute_no_fault. step_state. by eexists. }
  split.
  - intros [staged Hstaged]. apply Hcreate.
    rewrite execute_no_fault. step_state. by rewrite Hstaged.
  - intros Hstaging Hfeatures. apply Hcreate.
    rewrite execute_no_fault. step_state. by rewrite Hstaging, Hfeatures.
Qed.

End migration_refused.

Lemma migration_refused_witness :
  ∃ printed,
    @execute_migration example_runtime merged_rows empty_store
    = (empty_store, printed, operational_error "no such table: features").
Proof.
  by apply (proj2 (@migration_refused example_runtime merged_rows ∅)).
Defined.

(** ** [main] as a whole *)

Lemma keeps_commits_only_on_return {A} (m : M A) :
  keeps same_committed m → commits_only_on_return m.
Proof.
  intros Hm c c' out e Hrun. specialize (Hm c). unfold state_after in Hm.
  by rewrite Hrun in Hm.
Qed.

Lemma commits_only_on_return_bind {A B} (m : M A) (f : A → M B) :
  keeps same_committed m → (∀ a, commits_only_on_return (f a)) →
  commits_only_on_return (m ≫= f).
Proof.
  intros Hm Hf c c' out e. specialize (Hm c). unfold state_after in Hm.
  unfold mbind, M_bind. destruct (m c) as [[c1 o1] [a|e1]]; simpl in Hm.
  - destruct (f a c1) as [[c2 o2] r2] eqn:Hfa. intros [= <- _ ->].
    rewrite <- Hm. by eapply Hf.
  - by intros [= <- _ _].
Qed.

Section main_effects.
Context `{Runtime}.

Lemma execute_migration_raised (consolidated : list Feature) :
  commits_only_on_return (execute_migration consolidated).
Proof.
  intros c c' out e. unfold execute_migration.
  cbv [mbind M_bind print try_except handling raise].
  destruct (execute_all (migration_statements consolidated) c)
    as [[c1 o1] [[]|cause]] eqn:Hrun; [discriminate|].
  apply migration_failed in Hrun.
  destruct (is_exception cause); [|by intros [= <- _ _]].
  pose proof (execute_rollback c1) as Hback. unfold state_after in Hback.
  destruct (execute ROLLBACK c1) as [[c2 o2] [rows|e2]]; simpl in Hback;
    intros [= <- _ _]; congruence.
Qed.

Lemma keeps_loading : keeps same_committed get_all_features.
Proof. apply keeps_get_all_features; [apply _ | apply select_same_committed]. Qed.

Lemma keeps_consolidating (flag : bool) : keeps same_committed (consolidate_all flag).
Proof. apply keeps_consolidate_all; [apply _ | apply select_same_committed]. Qed.

(** The steps of [main] before the migration. *)
Ltac main_step :=
  first
    [ apply keeps_print | apply keeps_ret | apply keeps_raise | apply keeps_lift
    | apply keeps_validate | apply keeps_print_category_lines
    | apply keeps_loading | apply keeps_consolidating
    | apply connect_same_committed | apply close_same_committed ];
  try apply _.

Lemma main_raised (args : Args) : commits_only_on_return (main args).
Proof.
  unfold main.
  apply commits_only_on_return_bind.
  { destruct (negb (dry_run args) && negb (execute_flag args)); [|main_step].
    apply keeps_bind; [apply _ | main_step | intros []; main_step]. }
  intros [].
  do 5 (apply commits_only_on_return_bind; [main_step | intros []]).
  apply commits_only_on_return_bind; [main_step | intros original].
  apply commits_only_on_return_bind; [main_step | intros [consolidated stats]].
  do 3 (apply commits_only_on_return_bind; [main_step | intros []]).
  apply commits_only_on_return_bind; [main_step | intros overall].
  do 4 (apply commits_only_on_return_bind; [main_step | intros []]).
  destruct (execute_flag args).
  - intros c c' out e. unfold mbind, M_bind.
    destruct (execute_migration consolidated c) as [[c1 o1] [[]|e1]] eqn:Hrun.
    + unfold close. by intros [= _ _ ?].
    + intros [= <- _ _]. by eapply execute_migration_raised.
  - apply keeps_commits_only_on_return.
    apply keeps_bind; [apply _ | main_step | intros []; main_step].
Qed.

Lemma main_without_execute (args : Args) :
  execute_flag args = false → keeps same_committed (main args).
Proof.
  intros Hexec. unfold main. rewrite Hexec.
  apply keeps_bind; [apply _| |intros []].
  { destruct (negb (dry_run args) && negb false); [|main_step].
    apply keeps_bind; [apply _ | main_step | intros []; main_step]. }
  do 5 (apply keeps_bind; [apply _ | main_step | intros []]).
  apply keeps_bind; [apply _ | main_step | intros original].
  apply keeps_bind; [apply _ | main_step | intros [consolidated stats]].
  do 3 (apply keeps_bind; [apply _ | main_step | intros []]).
  apply keeps_bind; [apply _ | main_step | intros overall].
  do 4 (apply keeps_bind; [apply _ | main_step | intros []]).
  apply keeps_bind; [apply _ | main_step | intros []; main_step].
Qed.

(** X14. Whatever the arguments, the state of the database and the
    faults on the way, a run of [main] changes the committed tables only if
    [--execute] was given and the run returned without an exception: a
    failed load, a failed validation or a failed migration leave the
    database as it was. *)
Theorem main_all_or_nothing (args : Args) (c c' : conn) (printed : list str)
    (r : result ()) :
  main args c = (c', printed, r) →
  execute_flag args = false ∨ (∃ e, r = Raise e) →
  committed c' = committed c.
Proof.
  intros Hrun [Hexec|[e ->]].
  - pose proof (main_without_execute args Hexec c) as Hkeep.
    unfold state_after in Hkeep. by rewrite Hrun in Hkeep.
  - by eapply main_raised.
Qed.

End main_effects.

Lemma main_all_or_nothing_witness :
  ∃ c' printed e,
    @main example_runtime execute_args healthy_store = (c', printed, Raise e)
    ∧ committed c' = committed healthy_store.
Proof.
  assert (∃ c' printed e,
            @main example_runtime execute_args healthy_store = (c', printed, Raise e))
    as (c' & printed & e & Hrun) by (eexists _, _, _; vm_compute; reflexivity).
  exists c', printed, e. split; [done|].
  apply (@main_all_or_nothing example_runtime execute_args healthy_store c' printed
           (Raise e) Hrun).
  right. by exists e.
Defined.

(** ** An empty table, and both flags *)

Lemma run_bind_ok {A B} (m : M A) (f : A → M B) (c c1 : conn) (o1 : list str) (a : A) :
  m c = (c1, o1, Ok a) →
  (m ≫= f) c = (let '(c2, o2, r) := f a c1 in (c2, o1 ++ o2, r)).
Proof. intros Hm. unfold mbind, M_bind. by rewrite Hm. Qed.

Section main_edges.
Context `{Runtime}.

Lemma load_empty_table (T : tables) :
  T !! "features" = Some [] →
  get_all_features {| committed := T; working := None; faults := [] |}
  = ({| committed := T; working := None; faults := [] |}, [], Ok []).
Proof.
  intros Hempty. unfold get_all_features.
  erewrite run_bind_ok; last first.
  { rewrite execute_no_fault. step_state. rewrite Hempty. reflexivity. }
  reflexivity.
Qed.

(** X15. On an empty table [features], [main] gets as far as the
    reduction of the whole table and fails there with a
    ZeroDivisionError, in either mode: nothing is validated, nothing is
    migrated, and the database is as it was. *)
Theorem main_on_empty_table (args : Args) (T : tables) (w : option tables) :
  dry_run args = true ∨ execute_flag args = true →
  T !! "features" = Some [] →
  ∃ printed,
    main args {| committed := T; working := w; faults := [] |}
    = ({| committed := T; working := None; faults := [] |}, printed,
       Raise (Exn ZeroDivisionError (lit "division by zero"))).
Proof.
  intros Hflag Hempty. unfold main.
  assert (negb (dry_run args) && negb (execute_flag args) = false) as ->
    by (destruct Hflag as [-> | ->]; [done | apply andb_false_r]).
  erewrite run_bind_ok; last reflexivity.
  erewrite run_bind_ok; last reflexivity.
  unfold set_working. cbn [committed faults].
  do 4 (erewrite run_bind_ok; last reflexivity).
  erewrite run_bind_ok; last by apply load_empty_table.
  erewrite run_bind_ok; last first.
  { unfold consolidate_all. erewrite run_bind_ok; last by apply load_empty_table.
    reflexivity. }
  by eexists.
Qed.

(** X16. [--dry-run] does not hold [--execute] back: given both, [main]
    announces a dry run and then does everything it does for [--execute]
    alone, the migration included. The two runs end in the same state
    with the same result, and print the same lines but for the one that
    names the mode. *)
Theorem dry_run_does_not_stop_execute (d : str) (c : conn) :
  let both := {| dry_run := true; execute_flag := true; db := d |} in
  let only := {| dry_run := false; execute_flag := true; db := d |} in
  state_after (main both) c = state_after (main only) c
  ∧ (main both c).2 = (main only c).2
  ∧ (main both c).1.2 !! 1 = Some (lit "Mode: DRY RUN")
  ∧ (main only c).1.2 !! 1 = Some (lit "Mode: EXECUTE")
  ∧ ∀ i, i ≠ 1 → (main both c).1.2 !! i = (main only c).1.2 !! i.
Proof.
  intros both only. unfold state_after, main, both, only, consolidate_all.
  cbn [dry_run execute_flag db negb andb].
  match goal with
  | |- context [print (lit "Mode: " ++ lit "DRY RUN") ≫= ?k] => generalize k
  end.
  intros rest. unfold mbind, M_bind, mret, M_ret, connect, print.
  destruct (rest () (set_working c None)) as [[c2 o2] r2].
  cbn [fst snd app]. split; [done|]. split; [done|]. split; [done|]. split; [done|].
  intros [|[|i]]; done.
Qed.

End main_edges.

(** ** The properties above on worked inputs *)

Lemma consolidated_ids_distinct_witness :
  ∃ out stats,
    @consolidate_features example_runtime mixed_features = Ok (out, stats)
    ∧ NoDup (id <$> out) ∧ id <$> out ⊆+ id <$> mixed_features.
Proof.
  assert (∃ out stats,
            @consolidate_features example_runtime mixed_features = Ok (out, stats))
    as (out & stats & Hrun) by (eexists _, _; vm_compute; reflexivity).
  exists out, stats. split; [done|].
  apply (@consolidated_ids_distinct example_runtime mixed_features out stats);
    [|done].
  by apply (bool_decide_unpack _); vm_compute.
Defined.

Lemma validation_passes_only_between_witness :
  ∃ out stats printed,
    @consolidate_features example_runtime (numbered_features 1000) = Ok (out, stats)
    ∧ validate (numbered_features 1000) out empty_store = (empty_store, printed, Ok ())
    ∧ 250 < length (numbered_features 1000) ∧ length (numbered_features 1000) ≤ 2400
    ∧ length out ≤ length (numbered_features 1000)
    ∧ length (numbered_features 1000) ≤ 4 * length out.
Proof.
  assert (∃ out stats printed,
            @consolidate_features example_runtime (numbered_features 1000)
            = Ok (out, stats)
            ∧ validate (numbered_features 1000) out empty_store
              = (empty_store, printed, Ok ()))
    as (out & stats & printed & Hrun & Hvalid)
    by (eexists _, _, _; split; vm_compute; reflexivity).
  exists out, stats, printed. split; [exact Hrun|]. split; [exact Hvalid|].
  exact (@validation_passes_only_between example_runtime (numbered_features 1000)
           out stats empty_store empty_store printed Hrun Hvalid).
Defined.

Lemma statistics_add_up_witness :
  ∃ out stats,
    @consolidate_features example_runtime mixed_features = Ok (out, stats)
    ∧ before stats = length mixed_features
    ∧ after stats = length out
    ∧ sum_list_with (λ entry, cat_before entry.2) (by_category stats) = before stats
    ∧ sum_list_with (λ entry, cat_after entry.2) (by_category stats) = after stats.
Proof.
  assert (∃ out stats,
            @consolidate_features example_runtime mixed_features = Ok (out, stats))
    as (out & stats & Hrun) by (eexists _, _; vm_compute; reflexivity).
  exists out, stats. split; [done|].
  destruct (@statistics_add_up example_runtime mixed_features out stats Hrun)
    as (Hbefore & Hafter & Hsum_before & Hsum_after & _).
  done.
Defined.

Lemma consolidate_all_by_category_witness :
  ∃ out stats cats outs,
    @consolidate_features example_runtime mixed_features = Ok (out, stats)
    ∧ StronglySorted (λ a b, str_le a b) cats
    ∧ Forall2 (λ c o,
         consolidate_category (filter (λ f, category f = c) mixed_features) c = Ok o)
        cats outs
    ∧ out = mjoin outs
    ∧ (by_category stats).*1 = cats.
Proof.
  assert (∃ out stats,
            @consolidate_features example_runtime mixed_features = Ok (out, stats))
    as (out & stats & Hrun) by (eexists _, _; vm_compute; reflexivity).
  destruct (@consolidate_all_by_category example_runtime mixed_features out stats Hrun)
    as (cats & outs & Hsorted & _ & _ & Heach & Hout & Hkeys).
  by exists out, stats, cats, outs.
Defined.

Lemma no_warning_after_consolidation_witness :
  ∃ out stats printed,
    @consolidate_features example_runtime (numbered_features 1000) = Ok (out, stats)
    ∧ validate (numbered_features 1000) out empty_store = (empty_store, printed, Ok ())
    ∧ (WARNING_LINE ∉ printed)
    ∧ (CHECK_MARK :: lit " Steps preserved ("
         ++ str_of_nat (total_steps out - total_steps (numbered_features 1000))
         ++ lit " parent names added)") ∈ printed.
Proof.
  assert (∃ out stats printed,
            @consolidate_features example_runtime (numbered_features 1000)
            = Ok (out, stats)
            ∧ validate (numbered_features 1000) out empty_store
              = (empty_store, printed, Ok ()))
    as (out & stats & printed & Hrun & Hvalid)
    by (eexists _, _, _; split; vm_compute; reflexivity).
  exists out, stats, printed. split; [exact Hrun|]. split; [exact Hvalid|].
  destruct (@no_warning_after_consolidation example_runtime (numbered_features 1000)
              out stats empty_store Hrun empty_store printed (Ok ()) Hvalid)
    as [Hquiet Hline].
  split; [exact Hquiet|]. exact (Hline eq_refl).
Defined.

Lemma main_on_empty_table_witness :
  ∃ printed,
    @main example_runtime preview_args vacant_store
    = (vacant_store, printed, Raise (Exn ZeroDivisionError (lit "division by zero"))).
Proof.
  apply (@main_on_empty_table example_runtime preview_args {[ "features" := [] ]} None).
  - by left.
  - by rewrite lookup_singleton_eq.
Defined.

(** ** A second pass *)

Lemma parent_named (cat : str) (group : list Feature) (parent : Feature) :
  make_parent cat group = Ok parent → 1 < length group → blank (name parent) = false.
Proof.
  unfold make_parent. destruct group as [|first rest]; [discriminate|].
  cbn [first_item fmap list_fmap py_min mbind result_bind].
  unfold parent_name. intros Hparent Hlen. rewrite decide_True in Hparent by done.
  destruct (split (name first)) as [|w ws]; [discriminate|].
  cbn [first_item mbind result_bind] in Hparent. by injection Hparent as <-.
Qed.

Lemma full_chunk (features : list Feature) (k : nat) (group : list Feature) :
  chunks features !! k = Some group →
  k + 1 < length (chunks features) →
  length group = chunk_factor (length features).
Proof.
  rewrite length_chunks, chunks_unfold, list_lookup_fmap.
  intros Hgroup Hk.
  pose proof (chunk_factor_pos (length features)) as Hf.
  pose proof (ceil_div_start (length features) _ (k + 1) Hf Hk) as Hnext.
  destruct (seq _ _ !! k) as [k'|] eqn:Hseq; [|done].
  apply lookup_seq in Hseq as [-> _]. injection Hgroup as <-.
  rewrite length_take, length_drop. nia.
Qed.

Lemma chunk_head (features : list Feature) (k : nat) (group : list Feature)
    (first : Feature) :
  chunks features !! k = Some group →
  head group = Some first →
  features !! (k * chunk_factor (length features)) = Some first.
Proof.
  rewrite chunks_unfold, list_lookup_fmap. intros Hgroup Hhead.
  destruct (seq _ _ !! k) as [k'|] eqn:Hseq; [|done].
  apply lookup_seq in Hseq as [-> _]. injection Hgroup as <-.
  pose proof (chunk_factor_pos (length features)) as Hf.
  rewrite head_lookup, lookup_take_lt, lookup_drop in Hhead by lia.
  by rewrite Nat.add_0_r in Hhead.
Qed.

(** What [consolidate_category] returned, it takes again. *)
Lemma consolidate_category_again (features out : list Feature) (cat : str) :
  consolidate_category features cat = Ok out →
  is_Ok (consolidate_category out cat).
Proof.
  intros Hout.
  destruct (decide (cat = AUDIO_SYSTEM)) as [->|Hcat];
    [rewrite consolidate_category_no_factor; by eexists|].
  destruct (decide (length out ≤ 3)) as [|Hmany];
    [rewrite consolidate_category_small by done; by eexists|].
  destruct (decide (length features ≤ 3)) as [Hfew|Hlong].
  { rewrite consolidate_category_small in Hout by done.
    injection Hout as <-. lia. }
  rewrite consolidate_category_chunked in Hout by (done || lia).
  rewrite consolidate_category_chunked by (done || lia).
  apply mapM_Ok in Hout. apply chunked_is_Ok. unfold heads_named.
  apply Forall_forall. intros group Hgroup Hlen first Hhead.
  apply list_elem_of_lookup in Hgroup as [k Hk].
  pose proof (chunk_head _ _ _ _ Hk Hhead) as Hfirst.
  pose proof (chunk_factor_pos (length out)) as Hpos.
  assert (k * chunk_factor (length out) + 1 < length out) as Hin.
  { revert Hk Hlen. rewrite chunks_unfold, list_lookup_fmap.
    destruct (seq _ _ !! k) as [k'|] eqn:Hseq; [|done].
    apply lookup_seq in Hseq as [-> _]. intros [= <-].
    rewrite length_take, length_drop. lia. }
  destruct (Forall2_lookup_r _ _ _ _ _ Hout Hfirst) as (source & Hsource & Hparent).
  apply (parent_named cat source); [done|].
  rewrite (full_chunk features _ _ Hsource).
  - destruct (chunk_factor_cases (length features)) as [[_ ->]|[_ ->]]; lia.
  - rewrite (Forall2_length _ _ _ Hout). nia.
Qed.

Lemma consolidate_category_category (features out : list Feature) (cat : str) :
  consolidate_category features cat = Ok out →
  Forall (λ f, category f = cat) features →
  Forall (λ f, category f = cat) out.
Proof.
  unfold consolidate_category. intros Hout Hall.
  case_decide; [by injection Hout as <-|].
  destruct (consolidation_factor _); [|by injection Hout as <-].
  apply mapM_Ok in Hout. clear -Hout.
  induction Hout as [|group parent groups out Hparent _ IH]; constructor; [|done].
  by apply make_parent_Ok in Hparent as (_ & -> & _).
Qed.

Lemma filter_other_categories (items : list (str * list Feature))
    (outs : list (list Feature)) (cat : str) :
  Forall2 (λ item o, Forall (λ f, category f = item.1) o) items outs →
  cat ∉ items.*1 →
  filter (λ f, category f = cat) (mjoin outs) = [].
Proof.
  induction 1 as [|item o items outs Ho _ IH]; [done|].
  rewrite fmap_cons, not_elem_of_cons. intros [Hne Hnotin].
  change (mjoin (o :: outs)) with (o ++ mjoin outs).
  rewrite filter_app, IH, app_nil_r by done.
  apply filter_none. eapply Forall_impl; [exact Ho|]. intros f Hf. simpl in Hf. congruence.
Qed.

Lemma filter_all {A} (P : A → Prop) `{∀ x, Decision (P x)} (l : list A) :
  Forall P l → filter P l = l.
Proof.
  induction 1 as [|x l Hx _ IH]; [done|]. by rewrite filter_cons_True, IH.
Qed.

Lemma second_pass_category (items : list (str * list Feature))
    (outs : list (list Feature)) (cat : str) :
  Forall2 (λ item o, consolidate_category item.2 item.1 = Ok o
                     ∧ Forall (λ f, category f = item.1) o) items outs →
  NoDup items.*1 →
  is_Ok (consolidate_category (filter (λ f, category f = cat) (mjoin outs)) cat).
Proof.
  induction 1 as [|item o items outs [Ho Hcat] Hrest IH].
  { intros _. rewrite consolidate_category_small by (simpl; lia). by eexists. }
  rewrite fmap_cons, NoDup_cons. intros [Hfresh Hkeys].
  change (mjoin (o :: outs)) with (o ++ mjoin outs). rewrite filter_app.
  destruct (decide (item.1 = cat)) as [<-|Hne].
  - rewrite (filter_other_categories items outs), app_nil_r, filter_all; [|done| |done].
    + by eapply consolidate_category_again.
    + eapply Forall2_impl; [exact Hrest|]. by intros ? ? [_ ?].
  - rewrite (filter_none _ o); [by apply IH|].
    eapply Forall_impl; [exact Hcat|]. intros f Hf. simpl in Hf. congruence.
Qed.

Section second_pass.
Context `{Runtime}.

(** X17. What [consolidate_all] returned can be consolidated again: a
    second pass does not raise on the records of the first, in the order
    of the output or in any order that keeps the records of each category
    in that order. *)
Theorem second_pass_does_not_raise (features out again : list Feature) (stats : Stats) :
  consolidate_features features = Ok (out, stats) →
  (∀ cat, filter (λ f, category f = cat) again = filter (λ f, category f = cat) out) →
  is_Ok (consolidate_features again).
Proof.
  intros (outs & Houts & -> & _)%consolidate_features_entries Hsame.
  set (items := merge_sort item_le (group_by_category features)) in *.
  assert (items ≡ₚ group_by_category features) as Hperm by apply merge_sort_Permutation.
  unfold consolidate_features.
  destruct (consolidate_loop_is_Ok (merge_sort item_le (group_by_category again)) ([], []))
    as [[o st] Hloop]; [|rewrite Hloop; by eexists].
  rewrite merge_sort_Permutation. apply Forall_forall. intros [cat fs] Hitem.
  pose proof (group_by_category_nonempty again) as Hne.
  rewrite Forall_forall in Hne. split; [by apply Hne|]. simpl.
  rewrite (group_by_category_filter _ _ _ Hitem), Hsame.
  apply (second_pass_category items); [|rewrite Hperm; apply group_by_category_keys].
  assert (Forall (λ item, item ∈ group_by_category features) items) as Hin
    by (apply Forall_forall; intros item; by rewrite Hperm).
  clear -Houts Hin. induction Houts as [|[c gs] o items outs Ho _ IH]; [constructor|].
  inversion Hin as [|? ? Hmember Hin']; subst.
  constructor; [|by apply IH]. split; [done|]. simpl in *.
  apply (consolidate_category_category gs); [done|].
  rewrite (group_by_category_filter _ _ _ Hmember).
  apply Forall_forall. by intros f [? _]%list_elem_of_filter.
Qed.

End second_pass.

Lemma second_pass_does_not_raise_witness :
  ∃ out stats,
    @consolidate_features example_runtime (numbered_features 20) = Ok (out, stats)
    ∧ is_Ok (@consolidate_features example_runtime out).
Proof.
  assert (∃ out stats,
            @consolidate_features example_runtime (numbered_features 20)
            = Ok (out, stats))
    as (out & stats & Hrun) by (eexists _, _; vm_compute; reflexivity).
  exists out, stats. split; [exact Hrun|].
  by apply (@second_pass_does_not_raise example_runtime (numbered_features 20) out out
              stats Hrun).
Defined.

(** ** Priorities *)

Lemma min_first (x : Z) (xs : list Z) :
  Forall (λ y, (x ≤ y)%Z) xs → foldl Z.min x xs = x.
Proof.
  induction 1 as [|y xs Hy _ IH]; [done|]. simpl. by rewrite Z.min_l.
Qed.

Lemma make_parent_first (cat : str) (group : list Feature) (parent : Feature) :
  StronglySorted by_priority group →
  make_parent cat group = Ok parent →
  ∃ first, head group = Some first
           ∧ (id parent, priority parent) = (id first, priority first).
Proof.
  unfold make_parent. destruct group as [|first rest]; [discriminate|].
  intros [_ Hleast]%StronglySorted_inv.
  cbn [first_item fmap list_fmap py_min mbind result_bind].
  destruct (parent_name first (first :: rest)) as [nm|e]; [|discriminate].
  cbn [mbind result_bind]. intros [= <-]. exists first. split; [done|].
  cbn [id priority]. f_equal. apply min_first.
  change (Forall (λ y, (priority first ≤ y)%Z) (priority <$> rest)).
  by apply Forall_fmap.
Qed.

Lemma heads_sublist_by {K} (key : Feature → K) (groups : list (list Feature))
    (out : list Feature) :
  Forall2 (λ group parent, ∃ first, head group = Some first ∧ key parent = key first)
    groups out →
  key <$> out `sublist_of` key <$> mjoin groups.
Proof.
  induction 1 as [|group parent groups out (first & Hhead & Hkey) _ IH]; [done|].
  destruct group as [|first' rest]; [done|]. injection Hhead as ->.
  change (mjoin ((first :: rest) :: groups)) with (first :: (rest ++ mjoin groups)).
  rewrite !fmap_cons, fmap_app, Hkey.
  by apply sublist_skip, sublist_inserts_l.
Qed.

Lemma sorted_sublist {A} (R : relation A) (k l : list A) :
  k `sublist_of` l → StronglySorted R l → StronglySorted R k.
Proof.
  induction 1 as [|x k l Hsub IH|x k l Hsub IH]; [done|..].
  - intros [Hl Hx]%StronglySorted_inv. constructor; [by apply IH|].
    rewrite Forall_forall in *. intros y Hy. apply Hx. by eapply elem_of_sublist.
  - intros [Hl _]%StronglySorted_inv. by apply IH.
Qed.

Lemma sorted_by_key {A K} (key : A → K) (R : relation K) (l : list A) :
  StronglySorted R (key <$> l) → StronglySorted (λ a b, R (key a) (key b)) l.
Proof.
  induction l as [|x l IH]; [constructor|].
  rewrite fmap_cons. intros [Hl Hx]%StronglySorted_inv.
  constructor; [by apply IH|].
  rewrite Forall_forall in Hx. apply Forall_forall. intros y Hy.
  apply Hx, list_elem_of_fmap. by exists y.
Qed.

Lemma sorted_chunks (R : relation Feature) (features : list Feature) :
  StronglySorted R features → Forall (StronglySorted R) (chunks features).
Proof.
  intros Hsorted. rewrite chunks_unfold. apply Forall_fmap, Forall_forall.
  intros k _. simpl. eapply sorted_sublist; [|exact Hsorted].
  etrans; [apply sublist_take | apply sublist_drop].
Qed.

Lemma consolidate_category_in_order (features out : list Feature) (cat : str) :
  StronglySorted by_priority features →
  consolidate_category features cat = Ok out →
  (λ f, (id f, priority f)) <$> out `sublist_of` (λ f, (id f, priority f)) <$> features.
Proof.
  intros Hsorted. unfold consolidate_category.
  case_decide; [by intros [= <-]|].
  destruct (consolidation_factor _); [|by intros [= <-]].
  intros Hout%mapM_Ok.
  replace ((λ f, (id f, priority f)) <$> features)
    with ((λ f, (id f, priority f)) <$> mjoin (chunks features))
    by by rewrite join_chunks.
  apply heads_sublist_by.
  pose proof (sorted_chunks _ _ Hsorted) as Hchunks. revert Hout Hchunks.
  generalize (chunks features). intros groups Hout.
  induction Hout as [|group parent groups out Hparent _ IH]; [constructor|].
  intros [Hgroup Hgroups]%Forall_cons. constructor; [|by apply IH].
  by eapply make_parent_first.
Qed.

Lemma filter_outputs (items : list (str * list Feature))
    (outs : list (list Feature)) (cat : str) :
  Forall2 (λ item o, Forall (λ f, category f = item.1) o) items outs →
  NoDup items.*1 →
  filter (λ f, category f = cat) (mjoin outs) = []
  ∨ filter (λ f, category f = cat) (mjoin outs) ∈ outs.
Proof.
  induction 1 as [|item o items outs Hcat Hrest IH]; [by left|].
  rewrite fmap_cons, NoDup_cons. intros [Hfresh Hkeys].
  change (mjoin (o :: outs)) with (o ++ mjoin outs). rewrite filter_app.
  destruct (decide (item.1 = cat)) as [<-|Hne].
  - rewrite (filter_other_categories items outs), app_nil_r, filter_all by done.
    right. by left.
  - rewrite (filter_none _ o).
    + destruct (IH Hkeys) as [->| Hin]; [by left | right; by right].
    + eapply Forall_impl; [exact Hcat|]. intros f Hf. simpl in Hf. congruence.
Qed.

Section priorities.
Context `{Runtime}.

(** X18. On a table in priority order, as [get_all_features] loads it,
    every record of the output stands where a record of the input stood:
    it has the id, the priority and the category of one of them, the
    first of its group. The records of each category come out in
    priority order again. *)
Theorem parents_in_priority_order (features out : list Feature) (stats : Stats) :
  StronglySorted by_priority features →
  consolidate_features features = Ok (out, stats) →
  (∀ p, p ∈ out → ∃ f, f ∈ features ∧ slot f = slot p)
  ∧ ∀ cat, StronglySorted by_priority (filter (λ f, category f = cat) out).
Proof.
  intros Hsorted (outs & Houts & -> & _)%consolidate_features_entries.
  set (items := merge_sort item_le (group_by_category features)) in *.
  assert (items ≡ₚ group_by_category features) as Hperm by apply merge_sort_Permutation.
  assert (Forall2 (λ item o,
            (λ f, (id f, priority f)) <$> o
              `sublist_of` (λ f, (id f, priority f)) <$> item.2
            ∧ Forall (λ f, category f = item.1) o
            ∧ item.2 = filter (λ f, category f = item.1) features) items outs)
    as Hall.
  { assert (Forall (λ item, item ∈ group_by_category features) items) as Hin
      by (apply Forall_forall; intros item; by rewrite Hperm).
    clear -Houts Hin Hsorted.
    induction Houts as [|[c gs] o items outs Ho _ IH]; [constructor|].
    inversion Hin as [|? ? Hmember Hin']; subst.
    constructor; [|by apply IH]. simpl in *.
    pose proof (group_by_category_filter _ _ _ Hmember) as Hgs.
    split; [|split; [|done]].
    - apply (consolidate_category_in_order gs o c); [|done].
      rewrite Hgs. eapply sorted_sublist; [apply sublist_filter | done].
    - apply (consolidate_category_category gs); [done|].
      rewrite Hgs. apply Forall_forall. by intros f [? _]%list_elem_of_filter. }
  split.
  - intros p (o & Hp & Ho)%list_elem_of_join.
    apply list_elem_of_lookup in Ho as [i Hi].
    destruct (Forall2_lookup_r _ _ _ _ _ Hall Hi) as ([c gs] & _ & Hsub & Hcat & Hgs).
    simpl in *.
    assert ((id p, priority p) ∈ (λ f, (id f, priority f)) <$> gs) as Hkey.
    { eapply elem_of_sublist; [|exact Hsub]. apply list_elem_of_fmap. by exists p. }
    apply list_elem_of_fmap in Hkey as (f & Hkey & Hf).
    rewrite Hgs in Hf. apply list_elem_of_filter in Hf as [Hc Hf].
    exists f. split; [done|]. unfold slot.
    rewrite Forall_forall in Hcat. rewrite (Hcat p Hp), Hc. by injection Hkey as -> ->.
  - intros cat.
    destruct (filter_outputs items outs cat) as [->|Hin].
    + eapply Forall2_impl; [exact Hall|]. by intros ? ? (_ & ? & _).
    + rewrite Hperm. apply group_by_category_keys.
    + constructor.
    + apply list_elem_of_lookup in Hin as [i Hi].
      destruct (Forall2_lookup_r _ _ _ _ _ Hall Hi) as ([c gs] & _ & Hsub & _ & Hgs).
      simpl in *.
      apply (sorted_by_key (λ f, (id f, priority f)) (λ a b, (a.2 ≤ b.2)%Z)).
      eapply sorted_sublist; [exact Hsub|].
      apply (StronglySorted_fmap _ by_priority); [done|].
      rewrite Hgs. eapply sorted_sublist; [apply sublist_filter | done].
Qed.

End priorities.

Lemma parents_in_priority_order_witness :
  ∃ out stats,
    @consolidate_features example_runtime mixed_features = Ok (out, stats)
    ∧ (∀ p, p ∈ out → ∃ f, f ∈ mixed_features ∧ slot f = slot p)
    ∧ ∀ cat, StronglySorted by_priority (filter (λ f, category f = cat) out).
Proof.
  assert (∃ out stats,
            @consolidate_features example_runtime mixed_features = Ok (out, stats))
    as (out & stats & Hrun) by (eexists _, _; vm_compute; reflexivity).
  exists out, stats. split; [exact Hrun|].
  apply (@parents_in_priority_order example_runtime mixed_features out stats);
    [|exact Hrun].
  repeat constructor; unfold by_priority; cbn; lia.
Defined.

(** ** A run of [main] that migrates *)






Section main_migrates.
Context `{Runtime}.






End main_migrates.



(** ** What the steps grow by *)

Lemma consolidate_category_adds (features out : list Feature) (cat : str) :
  consolidate_category features cat = Ok out →
  total_steps out
  = total_steps features
    + (if decide (length out < length features) then length features else 0).
Proof.
  intros Hout.
  destruct (decide (length features ≤ 3)) as [Hfew|Hmany].
  { rewrite consolidate_category_small in Hout by done. injection Hout as <-.
    rewrite decide_False by lia. lia. }
  destruct (decide (cat = AUDIO_SYSTEM)) as [->|Hcat].
  { rewrite consolidate_category_no_factor in Hout. injection Hout as <-.
    rewrite decide_False by lia. lia. }
  destruct (consolidate_category_reduces features cat out) as [_ Hless];
    [lia|done|done|].
  rewrite decide_True by done.
  rewrite consolidate_category_chunked in Hout by (done || lia).
  apply mapM_Ok, total_steps_parents in Hout.
  rewrite join_chunks in Hout. lia.
Qed.

Lemma total_steps_app (l k : list Feature) :
  total_steps (l ++ k) = total_steps l + total_steps k.
Proof. unfold total_steps. by rewrite sum_list_with_app. Qed.

Lemma outputs_add (items : list (str * list Feature)) (outs : list (list Feature))
    (entries : list (str * CategoryStats)) :
  Forall2 (λ item o, consolidate_category item.2 item.1 = Ok o) items outs →
  Forall2 (λ item entry, entry.1 = item.1 ∧ cat_before entry.2 = length item.2)
    items entries →
  Forall2 (λ o entry, cat_after entry.2 = length o) outs entries →
  total_steps (mjoin outs) = total_steps (mjoin items.*2) + records_merged entries.
Proof.
  intros Houts. revert entries.
  induction Houts as [|[cat fs] o items outs Ho _ IH]; intros entries Hbefore Hafter.
  { by inversion Hbefore. }
  inversion Hbefore as [|? entry ? entries' [_ Hcount] Hbefore']; subst.
  inversion Hafter as [|? ? ? ? Hlength Hafter']; subst.
  rewrite fmap_cons.
  change (mjoin (o :: outs)) with (o ++ mjoin outs).
  change (mjoin ((cat, fs).2 :: items.*2)) with (fs ++ mjoin items.*2).
  rewrite !total_steps_app, (IH entries' Hbefore' Hafter').
  apply consolidate_category_adds in Ho. simpl in *.
  unfold records_merged. cbn [sum_list_with]. rewrite Hcount, Hlength.
  fold (records_merged entries'). lia.
Qed.

Section steps_added.
Context `{Runtime}.

(** X21. The steps grow by one line for each record that was merged, not
    one for each parent: the total of the output is the total of the input
    plus the number of records in the categories that the statistics show
    as reduced. That number is what [validate] reports as parent names
    added. *)
Theorem steps_grow_by_records_merged (features out : list Feature) (stats : Stats) :
  consolidate_features features = Ok (out, stats) →
  total_steps out = total_steps features + records_merged (by_category stats).
Proof.
  intros (outs & Houts & -> & _ & _ & Hbefore & Hafter)%consolidate_features_entries.
  rewrite (outputs_add _ _ _ Houts Hbefore Hafter). f_equal.
  unfold total_steps. by rewrite merge_sort_Permutation, group_by_category_join.
Qed.

End steps_added.

Lemma steps_grow_by_records_merged_witness :
  ∃ out stats,
    @consolidate_features example_runtime mixed_features = Ok (out, stats)
    ∧ total_steps out = total_steps mixed_features + records_merged (by_category stats)
    ∧ records_merged (by_category stats) = 4.
Proof.
  assert (∃ out stats,
            @consolidate_features example_runtime mixed_features = Ok (out, stats)
            ∧ records_merged (by_category stats) = 4)
    as (out & stats & Hrun & Hmerged) by (eexists _, _; split; vm_compute; reflexivity).
  exists out, stats. split; [exact Hrun|]. split; [|exact Hmerged].
  exact (@steps_grow_by_records_merged example_runtime mixed_features out stats Hrun).
Defined.
